(** * Karina: the dynamic value cell [Value] and its shared payload base
    [ValueData] (Source/Value.hxx).

    The header is embedded as a small imperative model: [Value] objects live
    in a store indexed by their address, payload objects ([String], [Array],
    [Dictionary], [Closure], all derived from [ValueData]) live in a heap
    indexed by theirs, and every member function is a computation on that
    memory which either returns, aborts on a failed [assert] (assertions
    enabled), or has undefined behaviour. *)

From Stdlib Require Import ZArith Lia List.
From Stdlib Require Import Floats.SpecFloat.
From stdpp Require Import base gmap fin_maps.

Module Karina.

Local Open Scope Z_scope.

(** ** Data model *)

(** Addresses of objects. An address that is not in the relevant map is a
    null or dangling pointer. *)
Abbreviation ptr := positive.

(** [Value::Type]. *)
Module Type_.
Inductive t :=
| Null | Boolean | Integer | FloatingPoint
| String | Array | Dictionary | Closure
| Reference.

#[global] Instance t_eq_dec : EqDecision t.
Proof. solve_decision. Defined.
End Type_.

(** [unsigned long] (LP64) and [double]. *)
Definition ULONG_MAX : Z := 2 ^ 64 - 1.
Abbreviation double := spec_float.

(** The anonymous union of [Value]: the member that was written last.
    [indeterminate] is storage no member of which was written. *)
Inductive Union :=
| indeterminate
| reference_ (p : ptr)
| boolean_ (b : bool)
| integer_ (n : Z)
| floatingPoint_ (d : double)
| string_ (p : ptr)
| array_ (p : ptr)
| dictionary_ (p : ptr)
| closure_ (p : ptr).

Record Value := mkValue { type_ : Type_.t; union_ : Union }.

(** The four payload classes. Their fields are not part of the header; an
    object is its dynamic class together with the [copyCount_] it inherits
    from [ValueData]. *)
Inductive PayloadClass := String | Array | Dictionary | Closure.

#[global] Instance PayloadClass_eq_dec : EqDecision PayloadClass.
Proof. solve_decision. Defined.

Record ValueData := mkValueData { dynamic_class : PayloadClass; copyCount_ : Z }.

(** [int] is 32 bits wide. *)
Definition INT_MAX : Z := 2147483647.
Definition INT_MIN : Z := -2147483648.

(** Memory: the live [Value] objects, the live payload objects, and the
    trace of [delete] calls (most recent first). *)
Record State := mkState {
  values : gmap ptr Value;
  heap : gmap ptr ValueData;
  deleted : list ptr
}.

Definition empty_state : State := mkState ∅ ∅ [].

(** ** Outcomes and the computation monad *)

Inductive result (A : Type) :=
| Ok (a : A)
| AssertionFailed
| Undefined.
Arguments Ok {A} a.
Arguments AssertionFailed {A}.
Arguments Undefined {A}.

Definition M (A : Type) : Type := State → result (A * State).

#[global] Instance M_ret : MRet M := λ A a σ, Ok (a, σ).

#[global] Instance M_bind : MBind M := λ A B k m σ,
  match m σ with
  | Ok (a, σ') => k a σ'
  | AssertionFailed => AssertionFailed
  | Undefined => Undefined
  end.

Definition undefined {A} : M A := λ _, Undefined.

(** [assert(b)]. *)
Definition assert (b : bool) : M unit :=
  λ σ, if b then Ok (tt, σ) else AssertionFailed.

(** Reading and writing whole [Value] objects. *)
Definition load (a : ptr) : M Value :=
  λ σ, match values σ !! a with
       | Some v => Ok (v, σ)
       | None => Undefined
       end.

Definition store (a : ptr) (v : Value) : M unit :=
  λ σ, Ok (tt, mkState (<[a := v]> (values σ)) (heap σ) (deleted σ)).

(** End of the lifetime of the [Value] at [a]. *)
Definition end_lifetime (a : ptr) : M unit :=
  λ σ, Ok (tt, mkState (delete a (values σ)) (heap σ) (deleted σ)).

(** Reading and writing payload objects. *)
Definition load_data (p : ptr) : M ValueData :=
  λ σ, match heap σ !! p with
       | Some d => Ok (d, σ)
       | None => Undefined
       end.

Definition store_data (p : ptr) (d : ValueData) : M unit :=
  λ σ, Ok (tt, mkState (values σ) (<[p := d]> (heap σ)) (deleted σ)).

(** [delete this]. *)
Definition delete_data (p : ptr) : M unit :=
  λ σ, Ok (tt, mkState (values σ) (delete p (heap σ)) (p :: deleted σ)).

(** Reading one member of the union; reading a member other than the one
    written last is undefined. *)
Definition rd_reference_ (v : Value) : M ptr :=
  match union_ v with reference_ p => mret p | _ => undefined end.
Definition rd_boolean_ (v : Value) : M bool :=
  match union_ v with boolean_ b => mret b | _ => undefined end.
Definition rd_integer_ (v : Value) : M Z :=
  match union_ v with integer_ n => mret n | _ => undefined end.
Definition rd_floatingPoint_ (v : Value) : M double :=
  match union_ v with floatingPoint_ d => mret d | _ => undefined end.
Definition rd_string_ (v : Value) : M ptr :=
  match union_ v with string_ p => mret p | _ => undefined end.
Definition rd_array_ (v : Value) : M ptr :=
  match union_ v with array_ p => mret p | _ => undefined end.
Definition rd_dictionary_ (v : Value) : M ptr :=
  match union_ v with dictionary_ p => mret p | _ => undefined end.
Definition rd_closure_ (v : Value) : M ptr :=
  match union_ v with closure_ p => mret p | _ => undefined end.

(** ** ValueData (lines 412-436) *)

(** [operator new]: any function that picks an address not in use. *)
Record Allocator := mkAllocator {
  new_address : gmap ptr ValueData → ptr;
  new_address_fresh : ∀ h, h !! new_address h = None
}.

Definition first_fit : Allocator :=
  mkAllocator (λ h, fresh (dom h))
              (λ h, proj1 (not_elem_of_dom h _) (is_fresh (dom h))).

(** [ValueData::ValueData()] run by [new C(...)]: [copyCount_(0)]. *)
Definition new_ (A : Allocator) (C : PayloadClass) : M ptr :=
  λ σ, let p := new_address A (heap σ) in
       Ok (p, mkState (values σ) (<[p := mkValueData C 0]> (heap σ)) (deleted σ)).

(** [ValueData::copy]: [++copyCount_; return this;]. Incrementing an [int]
    that holds [INT_MAX] is undefined. *)
Definition copy (this : ptr) : M ptr :=
  d ← load_data this;
  if decide (copyCount_ d = INT_MAX) then undefined
  else
    store_data this (mkValueData (dynamic_class d) (copyCount_ d + 1));;
    mret this.

(** [ValueData::destroy]. *)
Definition destroy (this : ptr) : M unit :=
  d ← load_data this;
  if decide (copyCount_ d = 0) then
    delete_data this
  else if decide (copyCount_ d = INT_MIN) then undefined
  else
    store_data this (mkValueData (dynamic_class d) (copyCount_ d - 1)).

(** ** Value: construction (lines 151-200) *)

(** [Value::Value()]: only [type_] is initialised. *)
Definition Value_default (this : ptr) : M unit :=
  store this (mkValue Type_.Null indeterminate).

(** [VALUE_CONSTRUCTOR1]: [Value(bool)], [Value(unsigned long)],
    [Value(double)], [Value(Value * )]. *)
Definition Value_bool (this : ptr) (x : bool) : M unit :=
  store this (mkValue Type_.Boolean (boolean_ x)).

Definition Value_unsigned_long (this : ptr) (x : Z) : M unit :=
  store this (mkValue Type_.Integer (integer_ (x mod (ULONG_MAX + 1)))).

Definition Value_double (this : ptr) (x : double) : M unit :=
  store this (mkValue Type_.FloatingPoint (floatingPoint_ x)).

Definition Value_pointer (this : ptr) (x : ptr) : M unit :=
  store this (mkValue Type_.Reference (reference_ x)).

(** [VALUE_CONSTRUCTOR2]: the private constructors from a payload pointer. *)
Definition Value_String (this : ptr) (x : ptr) : M unit :=
  store this (mkValue Type_.String (string_ x)).

Definition Value_Array (this : ptr) (x : ptr) : M unit :=
  store this (mkValue Type_.Array (array_ x)).

Definition Value_Dictionary (this : ptr) (x : ptr) : M unit :=
  store this (mkValue Type_.Dictionary (dictionary_ x)).

Definition Value_Closure (this : ptr) (x : ptr) : M unit :=
  store this (mkValue Type_.Closure (closure_ x)).

(** [VALUE_MAKER(valueType)]: the body is
    [return Value(new String(std::forward<Args>(args)...));] whatever
    [valueType] is, so the object is a [String] and overload resolution picks
    [Value(String * )]. The result is built in the caller's storage [this];
    the constructor arguments only reach the payload's own fields. *)
Definition VALUE_MAKER {Args : Type} (valueType : PayloadClass)
    (A : Allocator) (args : Args) (this : ptr) : M unit :=
  p ← new_ A String;
  Value_String this p.

Definition MakeString {Args : Type} := @VALUE_MAKER Args String.
Definition MakeArray {Args : Type} := @VALUE_MAKER Args Array.
Definition MakeDictionary {Args : Type} := @VALUE_MAKER Args Dictionary.
Definition MakeClosure {Args : Type} := @VALUE_MAKER Args Closure.

(** ** Value: copy, move, destruction (lines 203-329) *)

(** [Value::Value(const Value &other)]. *)
Definition Value_copy (this other : ptr) : M unit :=
  o ← load other;
  match type_ o with
  | Type_.Null =>
      store this (mkValue Type_.Null indeterminate)
  | Type_.Boolean =>
      b ← rd_boolean_ o;
      store this (mkValue Type_.Boolean (boolean_ b))
  | Type_.Integer =>
      n ← rd_integer_ o;
      store this (mkValue Type_.Integer (integer_ n))
  | Type_.FloatingPoint =>
      d ← rd_floatingPoint_ o;
      store this (mkValue Type_.FloatingPoint (floatingPoint_ d))
  | Type_.String =>
      p ← rd_string_ o;
      q ← copy p;
      store this (mkValue Type_.String (string_ q))
  | Type_.Array =>
      p ← rd_array_ o;
      q ← copy p;
      store this (mkValue Type_.Array (array_ q))
  | Type_.Dictionary =>
      p ← rd_dictionary_ o;
      q ← copy p;
      store this (mkValue Type_.Dictionary (dictionary_ q))
  | Type_.Closure =>
      p ← rd_closure_ o;
      q ← copy p;
      store this (mkValue Type_.Closure (closure_ q))
  | Type_.Reference =>
      assert false
  end.

(** [other.type_ = t]. *)
Definition set_type_ (a : ptr) (t : Type_.t) : M unit :=
  v ← load a;
  store a (mkValue t (union_ v)).

(** [Value::Value(Value &&other)]. *)
Definition Value_move (this other : ptr) : M unit :=
  o ← load other;
  match type_ o with
  | Type_.Null =>
      store this (mkValue Type_.Null indeterminate)
  | Type_.Boolean =>
      b ← rd_boolean_ o;
      store this (mkValue Type_.Boolean (boolean_ b))
  | Type_.Integer =>
      n ← rd_integer_ o;
      store this (mkValue Type_.Integer (integer_ n))
  | Type_.FloatingPoint =>
      d ← rd_floatingPoint_ o;
      store this (mkValue Type_.FloatingPoint (floatingPoint_ d))
  | Type_.String =>
      p ← rd_string_ o;
      store this (mkValue Type_.String (string_ p));;
      set_type_ other Type_.Null
  | Type_.Array =>
      p ← rd_array_ o;
      store this (mkValue Type_.Array (array_ p));;
      set_type_ other Type_.Null
  | Type_.Dictionary =>
      p ← rd_dictionary_ o;
      store this (mkValue Type_.Dictionary (dictionary_ p));;
      set_type_ other Type_.Null
  | Type_.Closure =>
      p ← rd_closure_ o;
      store this (mkValue Type_.Closure (closure_ p));;
      set_type_ other Type_.Null
  | Type_.Reference =>
      assert false
  end.

(** [Value::~Value()]; the object's lifetime ends with it. *)
Definition Value_dtor (this : ptr) : M unit :=
  v ← load this;
  match type_ v with
  | Type_.Null | Type_.Boolean | Type_.Integer | Type_.FloatingPoint
  | Type_.Reference =>
      mret tt
  | Type_.String => p ← rd_string_ v; destroy p
  | Type_.Array => p ← rd_array_ v; destroy p
  | Type_.Dictionary => p ← rd_dictionary_ v; destroy p
  | Type_.Closure => p ← rd_closure_ v; destroy p
  end;;
  end_lifetime this.

(** ** Value: assignment and dereference (lines 332-358) *)

(** The value category of the argument of [operator=]: [T] is deduced as
    [Value &] for an lvalue and as [Value] for an rvalue. *)
Inductive Category := lvalue | rvalue.

(** Line 343 is [new (this) Value(std::forward(other))]. [std::forward]
    cannot deduce its template argument from a call, so the statement as
    written is ill-formed and the template [operator=] has no
    instantiation: no assignment between [Value]s runs. [placement_new] is
    NOT that statement: it is what the statement does once the argument is
    supplied, [std::forward<T>(other)], an lvalue selecting the copy
    constructor and an rvalue the move constructor. *)
Definition placement_new (T : Category) (this other : ptr) : M unit :=
  match T with
  | lvalue => Value_copy this other
  | rvalue => Value_move this other
  end.

(** [Value::operator=(T &&other)] with line 343 repaired as above; the
    asserts and the self-assignment test are lines 336-340 as written. It is
    kept only as one more operation a program may apply (the [assign] case
    of [Op]), so that the invariants proved of whole programs also cover an
    [operator=] repaired in this way. Nothing is claimed of the shipped
    [operator=] through it. *)
Definition operator_assign (T : Category) (this other : ptr) : M unit :=
  t ← load this;
  assert (bool_decide (type_ t ≠ Type_.Reference));;
  o ← load other;
  assert (bool_decide (type_ o ≠ Type_.Reference));;
  if decide (this = other) then
    mret tt
  else
    Value_dtor this;;
    placement_new T this other.

(** [Value::tryDereference]. *)
Definition tryDereference (this : ptr) : M ptr :=
  v ← load this;
  if decide (type_ v = Type_.Reference) then
    r ← rd_reference_ v;
    w ← load r;
    assert (bool_decide (type_ w ≠ Type_.Reference));;
    mret r
  else
    mret this.

(** ** Value: type tests and getters (lines 361-409) *)

(** [VALUE_TYPE_TESTER(valueType)]. *)
Definition VALUE_TYPE_TESTER (valueType : Type_.t) (this : ptr) : M bool :=
  v ← load this;
  assert (bool_decide (type_ v ≠ Type_.Reference));;
  mret (bool_decide (type_ v = valueType)).

Definition isNull := VALUE_TYPE_TESTER Type_.Null.
Definition isBoolean := VALUE_TYPE_TESTER Type_.Boolean.
Definition isInteger := VALUE_TYPE_TESTER Type_.Integer.
Definition isFloatingPoint := VALUE_TYPE_TESTER Type_.FloatingPoint.
Definition isString := VALUE_TYPE_TESTER Type_.String.
Definition isArray := VALUE_TYPE_TESTER Type_.Array.
Definition isDictionary := VALUE_TYPE_TESTER Type_.Dictionary.
Definition isClosure := VALUE_TYPE_TESTER Type_.Closure.

(** A pointer to an inline member of the [Value] at [object]. *)
Inductive Member := in_boolean_ | in_integer_ | in_floatingPoint_.
Record MemberPtr := mkMemberPtr { object : ptr; member : Member }.

(** [VALUE_DATA_GETTER1]: [assert(type_ == Type::valueType);
    return &simpleValueData;]. *)
Definition VALUE_DATA_GETTER1 (valueType : Type_.t) (simpleValueData : Member)
    (this : ptr) : M MemberPtr :=
  v ← load this;
  assert (bool_decide (type_ v = valueType));;
  mret (mkMemberPtr this simpleValueData).

Definition getBoolean := VALUE_DATA_GETTER1 Type_.Boolean in_boolean_.
Definition getInteger := VALUE_DATA_GETTER1 Type_.Integer in_integer_.
Definition getFloatingPoint :=
  VALUE_DATA_GETTER1 Type_.FloatingPoint in_floatingPoint_.

(** Reading through the pointer a scalar getter returned. *)
Definition deref (p : MemberPtr) : M Union :=
  v ← load (object p);
  match member p, union_ v with
  | in_boolean_, boolean_ b => mret (boolean_ b)
  | in_integer_, integer_ n => mret (integer_ n)
  | in_floatingPoint_, floatingPoint_ d => mret (floatingPoint_ d)
  | _, _ => undefined
  end.

(** [VALUE_DATA_GETTER2]: [assert(type_ == Type::valueType);
    return valueData;]. *)
Definition VALUE_DATA_GETTER2 (valueType : Type_.t)
    (valueData : Value → M ptr) (this : ptr) : M ptr :=
  v ← load this;
  assert (bool_decide (type_ v = valueType));;
  valueData v.

Definition getString := VALUE_DATA_GETTER2 Type_.String rd_string_.
Definition getArray := VALUE_DATA_GETTER2 Type_.Array rd_array_.
Definition getDictionary := VALUE_DATA_GETTER2 Type_.Dictionary rd_dictionary_.
Definition getClosure := VALUE_DATA_GETTER2 Type_.Closure rd_closure_.

(** Running a computation for its final memory. *)
Definition exec {A} (m : M A) (σ : State) : result State :=
  match m σ with
  | Ok (_, σ') => Ok σ'
  | AssertionFailed => AssertionFailed
  | Undefined => Undefined
  end.

(** [m] run [n] times in a row. *)
Fixpoint times (n : nat) (m : M unit) : M unit :=
  match n with
  | O => mret tt
  | S n' => m;; times n' m
  end.

(** The test of the share count: share [N] times, then release [N + 1]
    times. *)
Definition share_then_release (N : nat) (p : ptr) : M unit :=
  times N (copy p;; mret tt);;
  times (S N) (destroy p).

(** ** Vocabulary of the statements *)

Definition is_scalar (t : Type_.t) : bool :=
  match t with
  | Type_.Null | Type_.Boolean | Type_.Integer | Type_.FloatingPoint => true
  | _ => false
  end.

Definition is_heap_kind (t : Type_.t) : bool :=
  match t with
  | Type_.String | Type_.Array | Type_.Dictionary | Type_.Closure => true
  | _ => false
  end.

(** The payload pointer a [Value] owns: its tag is a heap kind and the union
    holds the member of that kind. *)
Definition payload (v : Value) : option ptr :=
  match type_ v, union_ v with
  | Type_.String, string_ p => Some p
  | Type_.Array, array_ p => Some p
  | Type_.Dictionary, dictionary_ p => Some p
  | Type_.Closure, closure_ p => Some p
  | _, _ => None
  end.

(** The union holds the member the tag names ([Null] names none). *)
Definition well_tagged (v : Value) : bool :=
  match type_ v, union_ v with
  | Type_.Null, _ => true
  | Type_.Boolean, boolean_ _ => true
  | Type_.Integer, integer_ _ => true
  | Type_.FloatingPoint, floatingPoint_ _ => true
  | Type_.String, string_ _ => true
  | Type_.Array, array_ _ => true
  | Type_.Dictionary, dictionary_ _ => true
  | Type_.Closure, closure_ _ => true
  | Type_.Reference, reference_ _ => true
  | _, _ => false
  end.

(** The eight predicates, the three scalar getters and the four payload
    getters, each with the kind it is generated for. *)
Definition predicates : list (Type_.t * (ptr → M bool)) :=
  [ (Type_.Null, isNull); (Type_.Boolean, isBoolean);
    (Type_.Integer, isInteger); (Type_.FloatingPoint, isFloatingPoint);
    (Type_.String, isString); (Type_.Array, isArray);
    (Type_.Dictionary, isDictionary); (Type_.Closure, isClosure) ].

Definition scalar_getters : list (Type_.t * Member * (ptr → M MemberPtr)) :=
  [ (Type_.Boolean, in_boolean_, getBoolean);
    (Type_.Integer, in_integer_, getInteger);
    (Type_.FloatingPoint, in_floatingPoint_, getFloatingPoint) ].

Definition payload_getters : list (Type_.t * (ptr → M ptr)) :=
  [ (Type_.String, getString); (Type_.Array, getArray);
    (Type_.Dictionary, getDictionary); (Type_.Closure, getClosure) ].

Definition getter_of (t : Type_.t) : option (ptr → M ptr) :=
  match t with
  | Type_.String => Some getString
  | Type_.Array => Some getArray
  | Type_.Dictionary => Some getDictionary
  | Type_.Closure => Some getClosure
  | _ => None
  end.

(** ** The ownership invariant *)

(** The [Value] of an entry of the store owns the payload object at [p]. *)
Definition owns (p : ptr) (kv : ptr * Value) : Prop := payload kv.2 = Some p.

#[global] Instance owns_dec p kv : Decision (owns p kv).
Proof. unfold owns. apply _. Defined.

(** The number of live [Value]s that own the payload object at [p]. *)
Definition count_owners (vs : gmap ptr Value) (p : ptr) : nat :=
  size (filter (owns p) vs).

Definition owners (σ : State) (p : ptr) : nat := count_owners (values σ) p.

(** Whether the [Value] in a slot of the store owns [p], as a number. *)
Definition ind (o : option Value) (p : ptr) : nat :=
  match o with
  | Some w => if decide (payload w = Some p) then 1 else 0
  | None => 0
  end.

(** Every live payload object has a share count that is not negative and
    one less than the number of its owners, and every owner points at a live
    payload object. *)
Definition Inv (σ : State) : Prop :=
  (∀ p d, heap σ !! p = Some d →
          0 ≤ copyCount_ d ∧ Z.of_nat (owners σ p) = copyCount_ d + 1) ∧
  (∀ a v p, values σ !! a = Some v → payload v = Some p →
            is_Some (heap σ !! p)).

(** The operations a program applies to [Value]s. [assign] applies
    [operator_assign], the [operator=] with line 343 repaired. *)
Inductive Op :=
| construct_default (this : ptr)
| construct_bool (this : ptr) (x : bool)
| construct_unsigned_long (this : ptr) (x : Z)
| construct_double (this : ptr) (x : double)
| construct_pointer (this : ptr) (x : ptr)
| make (valueType : PayloadClass) (this : ptr)
| construct_copy (this other : ptr)
| construct_move (this other : ptr)
| destruct_ (this : ptr)
| assign (T : Category) (this other : ptr)
| dereference (this : ptr)
| test (valueType : Type_.t) (this : ptr)
| get_scalar (valueType : Type_.t) (this : ptr)
| get_payload (valueType : Type_.t) (this : ptr).

Definition run_op (A : Allocator) (op : Op) : M unit :=
  match op with
  | construct_default this => Value_default this
  | construct_bool this x => Value_bool this x
  | construct_unsigned_long this x => Value_unsigned_long this x
  | construct_double this x => Value_double this x
  | construct_pointer this x => Value_pointer this x
  | make String this => MakeString A tt this
  | make Array this => MakeArray A tt this
  | make Dictionary this => MakeDictionary A tt this
  | make Closure this => MakeClosure A tt this
  | construct_copy this other => Value_copy this other
  | construct_move this other => Value_move this other
  | destruct_ this => Value_dtor this
  | assign T this other => operator_assign T this other
  | dereference this => tryDereference this;; mret tt
  | test valueType this =>
      match valueType with
      | Type_.Null => isNull this;; mret tt
      | Type_.Boolean => isBoolean this;; mret tt
      | Type_.Integer => isInteger this;; mret tt
      | Type_.FloatingPoint => isFloatingPoint this;; mret tt
      | Type_.String => isString this;; mret tt
      | Type_.Array => isArray this;; mret tt
      | Type_.Dictionary => isDictionary this;; mret tt
      | Type_.Closure => isClosure this;; mret tt
      | Type_.Reference => mret tt
      end
  | get_scalar valueType this =>
      match valueType with
      | Type_.Boolean => getBoolean this;; mret tt
      | Type_.Integer => getInteger this;; mret tt
      | Type_.FloatingPoint => getFloatingPoint this;; mret tt
      | _ => mret tt
      end
  | get_payload valueType this =>
      match valueType with
      | Type_.String => getString this;; mret tt
      | Type_.Array => getArray this;; mret tt
      | Type_.Dictionary => getDictionary this;; mret tt
      | Type_.Closure => getClosure this;; mret tt
      | _ => mret tt
      end
  end.

(** The storage in which an operation constructs a new [Value]. *)
Definition constructs (op : Op) : option ptr :=
  match op with
  | construct_default this | construct_bool this _
  | construct_unsigned_long this _ | construct_double this _
  | construct_pointer this _ | make _ this
  | construct_copy this _ | construct_move this _ => Some this
  | _ => None
  end.

(** A [Value] is constructed only in storage that holds no live [Value]. *)
Definition well_placed (op : Op) (σ : State) : bool :=
  match constructs op with
  | Some this => bool_decide (values σ !! this = None)
  | None => true
  end.

(** A sequence of operations, none of which aborts or is undefined. *)
Fixpoint run (A : Allocator) (ops : list Op) (σ : State) : option State :=
  match ops with
  | [] => Some σ
  | op :: rest =>
      if well_placed op σ then
        match exec (run_op A op) σ with
        | Ok σ' => run A rest σ'
        | _ => None
        end
      else None
  end.

(** A short program: make an array, copy it, move it, drop the copy, build
    an integer and assign the array to it. *)
Definition sample_program : list Op :=
  [ make Array 1; construct_copy 2 1; construct_move 3 1; destruct_ 2;
    construct_unsigned_long 4 42; assign lvalue 4 3; test Type_.Array 4 ]%positive.

(** The memory it leaves when run from the empty one: the payload object at
    1 is owned by the [Value]s at 3 and 4. *)
Definition sample_result : State :=
  mkState {[ 1%positive := mkValue Type_.Null (string_ 1);
             3%positive := mkValue Type_.String (string_ 1);
             4%positive := mkValue Type_.String (string_ 1) ]}
          {[ 1%positive := mkValueData String 1 ]} [].

(** Sample memories. *)

(** The [Value] at 1 is a Reference to the Integer 42 at 2. *)
Definition reference_to_42 : State :=
  mkState {[ 1%positive := mkValue Type_.Reference (reference_ 2);
             2%positive := mkValue Type_.Integer (integer_ 42) ]} ∅ [].

(** The String payload at 7 (share count 0) is owned by the [Value] at 1;
    the [Value] at 2 is the Integer 42. *)
Definition one_String_and_42 : State :=
  mkState {[ 1%positive := mkValue Type_.String (string_ 7);
             2%positive := mkValue Type_.Integer (integer_ 42) ]}
          {[ 7%positive := mkValueData String 0 ]} [].

(** The String payload at 7 holds [INT_MAX] in its share count. *)
Definition saturated_String : State :=
  mkState {[ 1%positive := mkValue Type_.String (string_ 7) ]}
          {[ 7%positive := mkValueData String INT_MAX ]} [].

(** The memory [σ] with the payload object at [p] holding share count [c]. *)
Definition with_count (σ : State) (p : ptr) (C : PayloadClass) (c : Z) : State :=
  mkState (values σ) (<[p := mkValueData C c]> (heap σ)) (deleted σ).

(** The memory [σ] after [delete p]. *)
Definition freed (σ : State) (p : ptr) : State :=
  mkState (values σ) (delete p (heap σ)) (p :: deleted σ).

(** One payload object, freshly constructed, and nothing else. *)
Definition one_fresh_String : State :=
  mkState ∅ {[ 1%positive := mkValueData String 0 ]} [].

(** ** Programs over several [Value]s *)

(** Nested scopes: a copy of [src] is constructed at each address of [l] in
    turn, [body] runs, and the copies are destroyed in the reverse order, as
    automatic objects are. *)
Fixpoint with_copies (l : list ptr) (src : ptr) (body : M unit) : M unit :=
  match l with
  | [] => body
  | a :: l' => Value_copy a src;; with_copies l' src body;; Value_dtor a
  end.

(** Every live [Value] holds in its union the member its tag names. *)
Definition all_well_tagged (vs : gmap ptr Value) : Prop :=
  ∀ a v, vs !! a = Some v → well_tagged v = true.

(** No live payload object has a saturated share count. *)
Definition below_INT_MAX (h : gmap ptr ValueData) : Prop :=
  ∀ p d, h !! p = Some d → copyCount_ d < INT_MAX.

(** [sample_program] followed by the destruction of every [Value] it left,
    and the memory that leaves. *)
Definition sample_program_dropped : list Op :=
  sample_program ++ [ destruct_ 1; destruct_ 3; destruct_ 4 ]%positive.

Definition sample_dropped_result : State := mkState ∅ ∅ [1%positive].

(** Two Strings are made and the first is copied: the [Value]s at 1 and 2
    share the payload at 1, the [Value] at 3 is the sole owner of the
    payload at 2. *)
Definition two_owners_program : list Op :=
  [ make String 1; construct_copy 2 1; make String 3 ]%positive.

Definition two_owners_and_one : State :=
  mkState {[ 1%positive := mkValue Type_.String (string_ 1);
             2%positive := mkValue Type_.String (string_ 1);
             3%positive := mkValue Type_.String (string_ 2) ]}
          {[ 1%positive := mkValueData String 1;
             2%positive := mkValueData String 0 ]} [].

(** The operations that call a factory, those that run a destructor, and
    those that only inspect a [Value]. *)
Definition allocates (op : Op) : bool :=
  match op with make _ _ => true | _ => false end.

Definition destroys (op : Op) : bool :=
  match op with destruct_ _ | assign _ _ _ => true | _ => false end.

Definition inspects (op : Op) : bool :=
  match op with
  | dereference _ | test _ _ | get_scalar _ _ | get_payload _ _ => true
  | _ => false
  end.

(** No live [Value] is tagged [Array], [Dictionary] or [Closure], and every
    live payload object is a [String]. *)
Definition only_Strings (σ : State) : Prop :=
  (∀ a v, values σ !! a = Some v →
          type_ v ≠ Type_.Array ∧ type_ v ≠ Type_.Dictionary ∧
          type_ v ≠ Type_.Closure) ∧
  (∀ p d, heap σ !! p = Some d → dynamic_class d = String).

(** ** A payload with as many owners as an [int] can count *)






(** ** The monad: evaluation lemmas *)

Section Monad.
Context {A B : Type}.

Lemma bind_Ok (m : M A) (k : A → M B) σ a σ' :
  m σ = Ok (a, σ') → (m ≫= k) σ = k a σ'.
Proof. intros E. unfold mbind, M_bind. by rewrite E. Qed.

Lemma bind_Undefined (m : M A) (k : A → M B) σ :
  m σ = Undefined → (m ≫= k) σ = Undefined.
Proof. intros E. unfold mbind, M_bind. by rewrite E. Qed.

Lemma bind_AssertionFailed (m : M A) (k : A → M B) σ :
  m σ = AssertionFailed → (m ≫= k) σ = AssertionFailed.
Proof. intros E. unfold mbind, M_bind. by rewrite E. Qed.

Lemma bind_Ok_inv (m : M A) (k : A → M B) σ r :
  (m ≫= k) σ = Ok r → ∃ a σ1, m σ = Ok (a, σ1) ∧ k a σ1 = Ok r.
Proof.
  unfold mbind, M_bind. destruct (m σ) as [[a σ1]| |]; [eauto|done..].
Qed.
End Monad.

Lemma exec_bind {A B} (m : M A) (k : A → M B) σ a σ' :
  m σ = Ok (a, σ') → exec (m ≫= k) σ = exec (k a) σ'.
Proof. intros E. unfold exec. by rewrite (bind_Ok _ _ _ _ _ E). Qed.

Lemma exec_seq (m k : M unit) σ σ' :
  exec m σ = Ok σ' → exec (m;; k) σ = exec k σ'.
Proof.
  unfold exec at 1. destruct (m σ) as [[[] σ1]| |] eqn:E; [|done..].
  intros [= ->]. exact (exec_bind m (λ _, k) σ () σ' E).
Qed.

Lemma exec_seq_Undefined (m k : M unit) σ :
  exec m σ = Undefined → exec (m;; k) σ = Undefined.
Proof.
  unfold exec at 1. destruct (m σ) as [[[] σ1]| |] eqn:E; [done..|].
  intros _. unfold exec. by rewrite (bind_Undefined _ _ _ E).
Qed.

Lemma times_add n k (m : M unit) σ σ' :
  exec (times n m) σ = Ok σ' →
  exec (times (n + k) m) σ = exec (times k m) σ'.
Proof.
  revert σ. induction n as [|n IH]; intros σ; simpl.
  - by intros [= ->].
  - intros E. destruct (m σ) as [[[] σ1]| |] eqn:Em.
    + rewrite (exec_bind _ _ _ _ _ Em) in E.
      rewrite (exec_bind _ _ _ _ _ Em). by apply IH.
    + unfold exec in E. by rewrite (bind_AssertionFailed _ _ _ Em) in E.
    + unfold exec in E. by rewrite (bind_Undefined _ _ _ Em) in E.
Qed.

(** Unfolds the operations of the model down to the memory. *)
Ltac unfold_model :=
  unfold share_then_release,
    isNull, isBoolean, isInteger, isFloatingPoint, isString, isArray,
    isDictionary, isClosure, VALUE_TYPE_TESTER,
    getBoolean, getInteger, getFloatingPoint, VALUE_DATA_GETTER1,
    getString, getArray, getDictionary, getClosure, VALUE_DATA_GETTER2,
    operator_assign, placement_new, tryDereference,
    Value_dtor, Value_move, Value_copy, set_type_,
    MakeString, MakeArray, MakeDictionary, MakeClosure, VALUE_MAKER,
    Value_String, Value_Array, Value_Dictionary, Value_Closure,
    Value_default, Value_bool, Value_unsigned_long, Value_double,
    Value_pointer, destroy, copy, new_,
    rd_reference_, rd_boolean_, rd_integer_, rd_floatingPoint_,
    rd_string_, rd_array_, rd_dictionary_, rd_closure_,
    delete_data, store_data, load_data, end_lifetime, store, load,
    assert, undefined, exec, mbind, M_bind, mret, M_ret in *.

(** ** The heap-kind factories *)

(** C1, as the code runs it: [MakeArray] (and likewise [MakeDictionary] and
    [MakeClosure]) allocates a [String] object and returns a [Value] tagged
    [String]; [isArray] answers false on the result. *)
Theorem MakeArray_builds_a_String {Args : Type} (A : Allocator) (args : Args)
    (this : ptr) (σ : State) :
  ∃ p σ',
    MakeArray A args this σ = Ok (tt, σ') ∧
    heap σ !! p = None ∧
    heap σ' !! p = Some (mkValueData String 0) ∧
    values σ' !! this = Some (mkValue Type_.String (string_ p)) ∧
    isArray this σ' = Ok (false, σ') ∧
    isString this σ' = Ok (true, σ') ∧
    MakeDictionary A args this σ = MakeArray A args this σ ∧
    MakeClosure A args this σ = MakeArray A args this σ ∧
    MakeString A args this σ = MakeArray A args this σ.
Proof.
  exists (new_address A (heap σ)). eexists. split; [reflexivity|].
  split; [apply new_address_fresh|].
  unfold_model; simpl. rewrite !lookup_insert_eq. done.
Qed.

(** ** Share and release *)

Lemma with_count_id σ p d :
  heap σ !! p = Some d → with_count σ p (dynamic_class d) (copyCount_ d) = σ.
Proof.
  intros H. destruct σ as [vs h del], d as [C c]; unfold with_count; simpl in *.
  by rewrite insert_id.
Qed.

Lemma copy_with_count σ p C c :
  c ≠ INT_MAX →
  copy p (with_count σ p C c) = Ok (p, with_count σ p C (c + 1)).
Proof.
  intros Hc. unfold_model; unfold with_count; simpl.
  rewrite lookup_insert_eq; simpl. case_decide; [done|].
  simpl. by rewrite insert_insert_eq.
Qed.

Lemma copy_overflow σ p C :
  copy p (with_count σ p C INT_MAX) = Undefined.
Proof.
  unfold_model; unfold with_count; simpl. by rewrite lookup_insert_eq.
Qed.

Lemma destroy_with_count σ p C c :
  0 < c →
  destroy p (with_count σ p C c) = Ok (tt, with_count σ p C (c - 1)).
Proof.
  intros Hc. unfold_model; unfold with_count; simpl.
  rewrite lookup_insert_eq; simpl.
  case_decide; [lia|]. case_decide; [unfold INT_MIN in *; lia|].
  simpl. by rewrite insert_insert_eq.
Qed.

Lemma destroy_last σ p C :
  destroy p (with_count σ p C 0) = Ok (tt, freed σ p).
Proof.
  unfold_model; unfold with_count, freed; simpl.
  rewrite lookup_insert_eq; simpl. by rewrite delete_insert_eq.
Qed.

Lemma times_copy (n : nat) σ p C c :
  c + Z.of_nat n ≤ INT_MAX →
  exec (times n (copy p;; mret tt)) (with_count σ p C c)
  = Ok (with_count σ p C (c + Z.of_nat n)).
Proof.
  revert c. induction n as [|n IH]; intros c Hc.
  - simpl. by rewrite Z.add_0_r.
  - change (times (S n) (copy p;; mret tt))
      with ((copy p;; mret tt);; times n (copy p;; mret tt)).
    rewrite (exec_seq _ _ _ (with_count σ p C (c + 1))).
    + rewrite IH by lia. f_equal. f_equal. lia.
    + rewrite (exec_bind _ _ _ _ _ (copy_with_count σ p C c ltac:(lia))).
      reflexivity.
Qed.

Lemma times_destroy (k : nat) σ p C c :
  Z.of_nat k ≤ c →
  exec (times k (destroy p)) (with_count σ p C c)
  = Ok (with_count σ p C (c - Z.of_nat k)).
Proof.
  revert c. induction k as [|k IH]; intros c Hc.
  - simpl. by rewrite Z.sub_0_r.
  - change (times (S k) (destroy p)) with (destroy p;; times k (destroy p)).
    rewrite (exec_bind _ _ _ _ _ (destroy_with_count σ p C c ltac:(lia))).
    rewrite IH by lia. f_equal. f_equal. lia.
Qed.

Lemma times_destroy_all (n : nat) σ p C :
  exec (times (S n) (destroy p)) (with_count σ p C (Z.of_nat n))
  = Ok (freed σ p).
Proof.
  replace (S n) with (n + 1)%nat by lia.
  rewrite (times_add _ _ _ _ (with_count σ p C 0)).
  - simpl. rewrite (exec_bind _ _ _ _ _ (destroy_last σ p C)). reflexivity.
  - rewrite times_destroy by lia. f_equal. f_equal. lia.
Qed.

(** C2, as stated, fails once the count would pass [INT_MAX]: the
    2147483648-th call of [copy] increments an [int] that holds [INT_MAX]. *)
Lemma share_count_overflows :
  exec (share_then_release (Z.to_nat 2147483648) 1%positive) one_fresh_String
  = Undefined.
Proof.
  assert (E : exec (times (Z.to_nat 2147483648) (copy 1%positive;; mret tt))
                one_fresh_String = Undefined).
  { replace (Z.to_nat 2147483648) with (Z.to_nat INT_MAX + 1)%nat
      by (unfold INT_MAX; lia).
    rewrite (times_add _ _ _ _ (with_count one_fresh_String 1 String INT_MAX)).
    - unfold times, exec.
      rewrite (bind_Undefined _ _ _
                 (bind_Undefined _ _ _ (copy_overflow one_fresh_String 1 String))).
      reflexivity.
    - pose proof (times_copy (Z.to_nat INT_MAX) one_fresh_String 1 String 0
                    ltac:(unfold INT_MAX; lia)) as E.
      change (with_count one_fresh_String 1 String 0)
        with (with_count one_fresh_String 1
                (dynamic_class (mkValueData String 0))
                (copyCount_ (mkValueData String 0))) in E.
      rewrite (with_count_id one_fresh_String 1 _ eq_refl) in E.
      rewrite E.
      assert (0 + Z.of_nat (Z.to_nat INT_MAX) = INT_MAX) as ->
        by (unfold INT_MAX; lia).
      reflexivity. }
  unfold share_then_release. by apply exec_seq_Undefined.
Qed.

(** C2, amended: for a freshly constructed payload object and
    [N <= INT_MAX], [N] calls of [copy] raise the share count to [N]; each of
    the first [N] calls of [destroy] only lowers it and frees nothing; the
    [(N+1)]-th call frees the object, once. *)
Theorem share_then_release_frees_once (σ : State) (p : ptr) (C : PayloadClass)
    (N : nat) :
  heap σ !! p = Some (mkValueData C 0) →
  Z.of_nat N ≤ INT_MAX →
  exec (times N (copy p;; mret tt)) σ = Ok (with_count σ p C (Z.of_nat N)) ∧
  (∀ k : nat, (k ≤ N)%nat →
     exec (times k (destroy p)) (with_count σ p C (Z.of_nat N))
     = Ok (with_count σ p C (Z.of_nat N - Z.of_nat k))) ∧
  exec (times (S N) (destroy p)) (with_count σ p C (Z.of_nat N))
  = Ok (freed σ p) ∧
  exec (share_then_release N p) σ = Ok (freed σ p).
Proof.
  intros Hp HN.
  assert (E : exec (times N (copy p;; mret tt)) σ
              = Ok (with_count σ p C (Z.of_nat N))).
  { rewrite <- (with_count_id σ p _ Hp) at 1. simpl.
    by rewrite times_copy by lia. }
  split_and!.
  - exact E.
  - intros k Hk. apply times_destroy. lia.
  - apply times_destroy_all.
  - unfold share_then_release.
    rewrite (exec_seq _ _ _ _ E). apply times_destroy_all.
Qed.

Lemma share_then_release_frees_once_witness :
  exec (share_then_release 2 1%positive) one_fresh_String
  = Ok (freed one_fresh_String 1%positive).
Proof.
  apply (share_then_release_frees_once one_fresh_String 1%positive String 2).
  - reflexivity.
  - unfold INT_MAX. lia.
Defined.

(** ** Dereference *)

Lemma tryDereference_Ok_inv σ this r σ' :
  tryDereference this σ = Ok (r, σ') →
  σ' = σ ∧ ∃ w, values σ !! r = Some w ∧ type_ w ≠ Type_.Reference.
Proof.
  unfold_model. intros H.
  destruct (values σ !! this) as [v|] eqn:Ev; [|done].
  case_decide as Ht.
  - destruct (union_ v); try done.
    destruct (values σ !! p) as [w|] eqn:Ew; [|done].
    case_bool_decide; [|done]. simplify_eq. eauto.
  - simplify_eq. eauto.
Qed.

Lemma tryDereference_direct σ this v :
  values σ !! this = Some v → type_ v ≠ Type_.Reference →
  tryDereference this σ = Ok (this, σ).
Proof.
  intros Ev Ht. unfold_model. rewrite Ev. by case_decide.
Qed.

(** C6: on a [Value] that is not a Reference [tryDereference] returns the
    [Value] itself; on a Reference whose referent is not a Reference it
    returns the referent; whatever it returns is not a Reference, and
    applying [tryDereference] to it returns it again. *)
Theorem tryDereference_idempotent (σ : State) (this : ptr) (v : Value) :
  values σ !! this = Some v →
  (type_ v ≠ Type_.Reference → tryDereference this σ = Ok (this, σ)) ∧
  (∀ r w, type_ v = Type_.Reference → union_ v = reference_ r →
          values σ !! r = Some w → type_ w ≠ Type_.Reference →
          tryDereference this σ = Ok (r, σ)) ∧
  (∀ r σ', tryDereference this σ = Ok (r, σ') →
           σ' = σ ∧
           (∃ w, values σ !! r = Some w ∧ type_ w ≠ Type_.Reference) ∧
           tryDereference r σ' = Ok (r, σ')).
Proof.
  intros Ev. split_and!.
  - by apply tryDereference_direct.
  - intros r w Ht Hu Ew Hw. unfold_model. rewrite Ev.
    case_decide; [|done]. rewrite Hu, Ew. by case_bool_decide.
  - intros r σ' H. destruct (tryDereference_Ok_inv _ _ _ _ H) as (-> & w & Ew & Hw).
    split_and!; [done|by eauto|]. by apply (tryDereference_direct _ _ w).
Qed.

Lemma tryDereference_idempotent_witness :
  tryDereference 1 reference_to_42 = Ok (2%positive, reference_to_42) ∧
  tryDereference 2 reference_to_42 = Ok (2%positive, reference_to_42).
Proof.
  destruct (tryDereference_idempotent reference_to_42 1
              (mkValue Type_.Reference (reference_ 2)) eq_refl)
    as (_ & Href & Hidem).
  assert (E : tryDereference 1 reference_to_42 = Ok (2%positive, reference_to_42)).
  { apply (Href 2%positive (mkValue Type_.Integer (integer_ 42)));
      [reflexivity|reflexivity|reflexivity|discriminate]. }
  split; [exact E|]. exact (proj2 (proj2 (Hidem _ _ E))).
Defined.

(** ** References to References *)

(** C7, as stated, fails: [Value(Value * )] only stores the tag and the
    pointer, so a Reference to the Reference at 1 is constructed at 3. *)
Lemma chained_Reference_is_constructed :
  (type_ <$> values reference_to_42 !! 1%positive) = Some Type_.Reference ∧
  Value_pointer 3 1 reference_to_42
  = Ok (tt, mkState (<[3%positive := mkValue Type_.Reference (reference_ 1)]>
                       (values reference_to_42)) ∅ []).
Proof. split; reflexivity. Qed.

(** C7, amended: constructing a Reference to a [Value] that is itself a
    Reference succeeds and stores the chained Reference; the chain is
    rejected, by the assertion of [tryDereference], when that Reference is
    dereferenced. *)
Theorem chained_Reference_asserts_on_dereference (σ : State) (this x : ptr)
    (w : Value) :
  values σ !! x = Some w →
  type_ w = Type_.Reference →
  ∃ σ',
    Value_pointer this x σ = Ok (tt, σ') ∧
    values σ' !! this = Some (mkValue Type_.Reference (reference_ x)) ∧
    tryDereference this σ' = AssertionFailed.
Proof.
  intros Ew Hw. eexists. split; [reflexivity|].
  unfold_model; simpl. rewrite lookup_insert_eq. split; [done|]. simpl.
  destruct (decide (this = x)) as [->|Hne].
  - by rewrite lookup_insert_eq.
  - rewrite lookup_insert_ne, Ew by done. rewrite Hw. done.
Qed.

Lemma chained_Reference_asserts_on_dereference_witness :
  ∃ σ',
    Value_pointer 3 1 reference_to_42 = Ok (tt, σ') ∧
    values σ' !! 3%positive = Some (mkValue Type_.Reference (reference_ 1)) ∧
    tryDereference 3 σ' = AssertionFailed.
Proof.
  apply (chained_Reference_asserts_on_dereference reference_to_42 3 1
           (mkValue Type_.Reference (reference_ 2)));
    reflexivity.
Defined.

(** ** Assertions of the predicates, the getters and the constructors *)

(** C8: each predicate asserts that the tag is not [Reference] and
    otherwise answers whether the tag is its kind; each getter asserts that
    the tag is its kind and otherwise returns (the address of the inline
    member, or the payload pointer); copy and move construction from a
    Reference assert false, and from any other [Value] fail no assertion. *)
Theorem contract_violations_are_asserted (σ : State) (this : ptr) (v : Value) :
  values σ !! this = Some v →
  Forall (λ '(t, is_),
            if decide (type_ v = Type_.Reference)
            then is_ this σ = AssertionFailed
            else is_ this σ = Ok (bool_decide (type_ v = t), σ))
         predicates ∧
  Forall (λ '(t, m, get),
            if decide (type_ v = t)
            then get this σ = Ok (mkMemberPtr this m, σ)
            else get this σ = AssertionFailed)
         scalar_getters ∧
  Forall (λ '(t, get),
            if decide (type_ v = t)
            then get this σ ≠ AssertionFailed ∧
                 ∀ p, payload v = Some p → get this σ = Ok (p, σ)
            else get this σ = AssertionFailed)
         payload_getters ∧
  (∀ dst,
     if decide (type_ v = Type_.Reference)
     then Value_copy dst this σ = AssertionFailed ∧
          Value_move dst this σ = AssertionFailed
     else Value_copy dst this σ ≠ AssertionFailed ∧
          Value_move dst this σ ≠ AssertionFailed).
Proof.
  intros Ev. destruct v as [t u]. simpl. split_and!.
  - unfold predicates. repeat apply Forall_cons_2; [..|apply Forall_nil_2];
      case_decide; unfold_model; rewrite Ev; simpl;
      repeat case_bool_decide; simplify_eq; done.
  - unfold scalar_getters. repeat apply Forall_cons_2; [..|apply Forall_nil_2];
      case_decide; unfold_model; rewrite Ev; simpl;
      repeat case_bool_decide; simplify_eq; done.
  - unfold payload_getters. repeat apply Forall_cons_2; [..|apply Forall_nil_2];
      (case_decide; [split; [|intros p Hp]|]);
      unfold_model; unfold payload in *; rewrite Ev; simpl in *;
      repeat case_bool_decide; simplify_eq; try done;
      destruct u; simplify_eq; done.
  - intros dst. case_decide as Ht.
    + subst t. unfold_model. rewrite Ev. done.
    + split; unfold_model; rewrite Ev; simpl;
        destruct t; try done; destruct u; try done; simpl;
        repeat (case_match; try done).
Qed.

Lemma contract_violations_are_asserted_witness :
  isInteger 2 one_String_and_42 = Ok (true, one_String_and_42) ∧
  getString 2 one_String_and_42 = AssertionFailed ∧
  getString 1 one_String_and_42 = Ok (7%positive, one_String_and_42).
Proof.
  pose proof (contract_violations_are_asserted one_String_and_42 2
                (mkValue Type_.Integer (integer_ 42)) eq_refl) as (Hp & _ & Hg & _).
  pose proof (contract_violations_are_asserted one_String_and_42 1
                (mkValue Type_.String (string_ 7)) eq_refl) as (_ & _ & Hg1 & _).
  split_and!.
  - exact (proj1 (Forall_lookup _ _) Hp 2%nat (_, _) eq_refl).
  - exact (proj1 (Forall_lookup _ _) Hg 0%nat (_, _) eq_refl).
  - exact (proj2 (proj1 (Forall_lookup _ _) Hg1 0%nat (_, _) eq_refl) _ eq_refl).
Defined.

(** ** Copy and move construction *)

Lemma payload_Some v p :
  payload v = Some p →
  is_heap_kind (type_ v) = true ∧
  (v = mkValue Type_.String (string_ p) ∨ v = mkValue Type_.Array (array_ p) ∨
   v = mkValue Type_.Dictionary (dictionary_ p) ∨
   v = mkValue Type_.Closure (closure_ p)).
Proof.
  destruct v as [[] []]; unfold payload; simpl; intros; simplify_eq; eauto 6.
Qed.

(** C4, as stated, fails when the share count cannot be incremented: the
    payload at 7 holds [INT_MAX], and copy-constructing from its owner
    overflows the [int]. *)
Lemma copy_of_saturated_payload_is_undefined :
  (payload <$> values saturated_String !! 1%positive) = Some (Some 7%positive) ∧
  Value_copy 2 1 saturated_String = Undefined.
Proof. split; reflexivity. Qed.

(** C4, amended: for a [Value] [v1] of heap kind whose payload's share count
    is below [INT_MAX], copy-constructing [v2] from [v1] gives [v2] the tag
    and the very payload pointer of [v1] and raises the share count of that
    payload by exactly one; no object is allocated, and the getters of [v1]
    and [v2] return the same pointer. *)
Theorem copy_shares_payload (σ : State) (v2 v1 : ptr) (o : Value) (p : ptr)
    (d : ValueData) :
  values σ !! v1 = Some o →
  payload o = Some p →
  heap σ !! p = Some d →
  copyCount_ d < INT_MAX →
  ∃ σ' get,
    Value_copy v2 v1 σ = Ok (tt, σ') ∧
    values σ' = <[v2 := o]> (values σ) ∧
    heap σ' = <[p := mkValueData (dynamic_class d) (copyCount_ d + 1)]> (heap σ) ∧
    deleted σ' = deleted σ ∧
    getter_of (type_ o) = Some get ∧
    get v1 σ' = Ok (p, σ') ∧
    get v2 σ' = Ok (p, σ').
Proof.
  intros Ev Hp Hd Hc.
  assert (Hv1 : <[v2 := o]> (values σ) !! v1 = Some o).
  { destruct (decide (v2 = v1)) as [->|];
      [by rewrite lookup_insert_eq | by rewrite lookup_insert_ne]. }
  destruct (payload_Some _ _ Hp) as (_ & [->|[->|[->| ->]]]);
    eexists; eexists;
    (split; [unfold_model; rewrite Ev; simpl; rewrite Hd;
             case_decide; [lia|reflexivity] |]);
    simpl; (split_and!; [reflexivity..| |]);
    unfold_model; simpl; rewrite ?Hv1, ?lookup_insert_eq; done.
Qed.

Lemma copy_shares_payload_witness :
  ∃ σ' get,
    Value_copy 3 1 one_String_and_42 = Ok (tt, σ') ∧
    values σ' = <[3%positive := mkValue Type_.String (string_ 7)]>
                  (values one_String_and_42) ∧
    heap σ' = <[7%positive := mkValueData String (0 + 1)]> (heap one_String_and_42) ∧
    deleted σ' = deleted one_String_and_42 ∧
    getter_of Type_.String = Some get ∧
    get 1%positive σ' = Ok (7%positive, σ') ∧
    get 3%positive σ' = Ok (7%positive, σ').
Proof.
  apply (copy_shares_payload one_String_and_42 3 1
           (mkValue Type_.String (string_ 7)) 7 (mkValueData String 0));
    [reflexivity|reflexivity|reflexivity|unfold INT_MAX; simpl; lia].
Defined.

(** C5: move-constructing [v2] from a [Value] [v] of heap kind gives [v2]
    the tag and the payload pointer of [v], sets the tag of [v] to [Null],
    and leaves the heap (so the share count) untouched; afterwards
    [v.isNull()] holds and the getter of [v2] returns the original pointer. *)
Theorem move_transfers_payload (σ : State) (v2 v : ptr) (o : Value) (p : ptr) :
  values σ !! v = Some o →
  payload o = Some p →
  v2 ≠ v →
  ∃ σ' get,
    Value_move v2 v σ = Ok (tt, σ') ∧
    values σ' = <[v := mkValue Type_.Null (union_ o)]> (<[v2 := o]> (values σ)) ∧
    heap σ' = heap σ ∧
    deleted σ' = deleted σ ∧
    isNull v σ' = Ok (true, σ') ∧
    getter_of (type_ o) = Some get ∧
    get v2 σ' = Ok (p, σ').
Proof.
  intros Ev Hp Hne.
  destruct (payload_Some _ _ Hp) as (_ & [->|[->|[->| ->]]]);
    eexists; eexists;
    (split; [unfold_model; rewrite Ev; simpl;
             rewrite lookup_insert_ne, Ev by done; reflexivity |]);
    simpl; (split_and!; [reflexivity..| | |]); try reflexivity;
    unfold_model; simpl;
    rewrite ?lookup_insert_eq, ?(lookup_insert_ne _ v v2), ?lookup_insert_eq
      by done; done.
Qed.

Lemma move_transfers_payload_witness :
  ∃ σ' get,
    Value_move 3 1 one_String_and_42 = Ok (tt, σ') ∧
    values σ' = <[1%positive := mkValue Type_.Null (string_ 7)]>
                  (<[3%positive := mkValue Type_.String (string_ 7)]>
                     (values one_String_and_42)) ∧
    heap σ' = heap one_String_and_42 ∧
    deleted σ' = deleted one_String_and_42 ∧
    isNull 1 σ' = Ok (true, σ') ∧
    getter_of Type_.String = Some get ∧
    get 3%positive σ' = Ok (7%positive, σ').
Proof.
  apply (move_transfers_payload one_String_and_42 3 1
           (mkValue Type_.String (string_ 7)) 7);
    [reflexivity|reflexivity|discriminate].
Defined.

(** C10: move-constructing from a [Value] tagged [Null], [Boolean],
    [Integer] or [FloatingPoint] leaves the source as it was, tag and scalar
    payload, and gives the new [Value] the same tag and scalar; in general
    the source's tag becomes [Null] exactly when it was a heap kind, and its
    union is never written. *)
Theorem move_leaves_scalar_source (σ : State) (this other : ptr) (o : Value) :
  values σ !! other = Some o →
  this ≠ other →
  well_tagged o = true →
  (is_scalar (type_ o) = true →
   ∃ σ' n,
     Value_move this other σ = Ok (tt, σ') ∧
     σ' = mkState (<[this := n]> (values σ)) (heap σ) (deleted σ) ∧
     values σ' !! other = Some o ∧
     type_ n = type_ o ∧
     (type_ o ≠ Type_.Null → union_ n = union_ o)) ∧
  (∀ σ', Value_move this other σ = Ok (tt, σ') →
     values σ' !! other
     = Some (mkValue (if is_heap_kind (type_ o) then Type_.Null else type_ o)
                     (union_ o))).
Proof.
  intros Ev Hne Hwt. split.
  - intros Hs. destruct o as [[] []]; try done;
      eexists; eexists;
      (split; [unfold_model; rewrite Ev; simpl; reflexivity |]);
      simpl; rewrite lookup_insert_ne by done; done.
  - intros σ'. unfold_model. rewrite Ev.
    destruct o as [[] []]; try done; simpl;
      rewrite ?lookup_insert_ne, ?Ev by done; simpl;
      intros [= <-]; simpl;
      rewrite ?lookup_insert_eq, ?lookup_insert_ne by done; done.
Qed.

Lemma move_leaves_scalar_source_witness :
  ∃ σ' n,
    Value_move 3 2 one_String_and_42 = Ok (tt, σ') ∧
    σ' = mkState (<[3%positive := n]> (values one_String_and_42))
                 (heap one_String_and_42) (deleted one_String_and_42) ∧
    values σ' !! 2%positive = Some (mkValue Type_.Integer (integer_ 42)) ∧
    type_ n = Type_.Integer ∧
    (Type_.Integer ≠ Type_.Null → union_ n = integer_ 42).
Proof.
  apply (move_leaves_scalar_source one_String_and_42 3 2
           (mkValue Type_.Integer (integer_ 42)));
    [reflexivity|discriminate|reflexivity|reflexivity].
Defined.

(** ** The destructor evaluated *)

Lemma Value_dtor_releases σ this t p :
  values σ !! this = Some t → payload t = Some p →
  Value_dtor this σ = (destroy p;; end_lifetime this) σ.
Proof.
  intros Ev Hp. unfold_model. rewrite Ev.
  destruct t as [[] []]; unfold payload in Hp; simpl in *; simplify_eq; done.
Qed.

Lemma Value_dtor_no_payload σ this t :
  values σ !! this = Some t → is_heap_kind (type_ t) = false →
  Value_dtor this σ = end_lifetime this σ.
Proof.
  intros Ev Hk. unfold_model. rewrite Ev. by destruct t as [[] ?].
Qed.

(** ** The ownership invariant is preserved *)

Lemma count_owners_insert_fresh vs a v p :
  vs !! a = None →
  count_owners (<[a := v]> vs) p = (ind (Some v) p + count_owners vs p)%nat.
Proof.
  intros Ha. unfold count_owners, ind. case_decide as Hv.
  - rewrite map_filter_insert_True by done.
    rewrite map_size_insert_None; [done|].
    apply map_lookup_filter_None_2. by left.
  - rewrite map_filter_insert_False by done. by rewrite delete_id.
Qed.

Lemma count_owners_delete vs a p :
  (count_owners (delete a vs) p + ind (vs !! a) p)%nat = count_owners vs p.
Proof.
  destruct (vs !! a) as [w|] eqn:Ha.
  - rewrite <- (insert_delete_id vs a w Ha) at 2.
    rewrite count_owners_insert_fresh by apply lookup_delete_eq. lia.
  - rewrite delete_id by done. simpl. lia.
Qed.

Lemma count_owners_insert vs a v p :
  (count_owners (<[a := v]> vs) p + ind (vs !! a) p)%nat
  = (ind (Some v) p + count_owners vs p)%nat.
Proof.
  rewrite <- (insert_delete_eq vs).
  rewrite count_owners_insert_fresh by apply lookup_delete_eq.
  pose proof (count_owners_delete vs a p). lia.
Qed.

Lemma count_owners_0 vs p :
  (∀ a v, vs !! a = Some v → payload v ≠ Some p) → count_owners vs p = 0%nat.
Proof.
  intros H. unfold count_owners. apply map_size_empty_iff, map_empty.
  intros a. apply map_lookup_filter_None_2.
  destruct (vs !! a) as [v|] eqn:Ha; [right|by left].
  intros w [= <-]. by apply (H a).
Qed.

Lemma count_owners_pos vs a v p :
  vs !! a = Some v → payload v = Some p → (0 < count_owners vs p)%nat.
Proof.
  intros Ha Hp. pose proof (count_owners_delete vs a p) as H.
  rewrite Ha in H. unfold ind in H. rewrite decide_True in H by done. lia.
Qed.

Lemma ind_None v p : payload v = None → ind (Some v) p = 0%nat.
Proof. intros H. unfold ind. rewrite H. by case_decide. Qed.

Lemma ind_Some v p q :
  payload v = Some p → ind (Some v) q = if decide (p = q) then 1%nat else 0%nat.
Proof.
  intros H. unfold ind. rewrite H.
  repeat case_decide; simplify_eq; done.
Qed.

Lemma Inv_empty_state : Inv empty_state.
Proof. split; [intros p d|intros a v p]; simpl; by rewrite lookup_empty. Qed.

(** A [Value] that owns nothing is constructed in free storage. *)
Lemma Inv_construct_plain vs h del this v :
  Inv (mkState vs h del) → vs !! this = None → payload v = None →
  Inv (mkState (<[this := v]> vs) h del).
Proof.
  intros [Hc Hd] Hf Hp. split; simpl in *.
  - intros p d Hpd. unfold owners; simpl.
    rewrite count_owners_insert_fresh by done. rewrite ind_None by done.
    by apply Hc.
  - intros a w p. rewrite lookup_insert. case_decide.
    + intros [= <-]. by rewrite Hp.
    + apply Hd.
Qed.

(** A new payload object is allocated and its first owner constructed. *)
Lemma Inv_make vs h del this p C v :
  Inv (mkState vs h del) → vs !! this = None → h !! p = None →
  payload v = Some p →
  Inv (mkState (<[this := v]> vs) (<[p := mkValueData C 0]> h) del).
Proof.
  intros [Hc Hd] Hf Hh Hp. split; simpl in *.
  - intros q d. unfold owners; simpl.
    rewrite count_owners_insert_fresh by done. rewrite (ind_Some _ p) by done.
    rewrite lookup_insert. case_decide as Hq.
    + intros [= <-]. simpl. rewrite count_owners_0; [lia|].
      intros a w Ha Hw. subst q. destruct (Hd a w p Ha Hw) as [? ?]. congruence.
    + intros Hqd. by apply Hc.
  - intros a w q. rewrite lookup_insert. case_decide.
    + intros [= <-] Hq. assert (q = p) as -> by congruence.
      by rewrite lookup_insert_eq.
    + intros Ha Hw. rewrite lookup_insert. case_decide; [done|]. by eapply Hd.
Qed.

(** One more owner of a live payload object, its count raised by one. *)
Lemma Inv_share vs h del this p d v :
  Inv (mkState vs h del) → vs !! this = None → h !! p = Some d →
  payload v = Some p →
  Inv (mkState (<[this := v]> vs)
               (<[p := mkValueData (dynamic_class d) (copyCount_ d + 1)]> h) del).
Proof.
  intros [Hc Hd] Hf Hh Hp. split; simpl in *.
  - intros q e. unfold owners; simpl.
    rewrite count_owners_insert_fresh by done. rewrite (ind_Some _ p) by done.
    rewrite lookup_insert. case_decide as Hq.
    + intros [= <-]. simpl. subst q. destruct (Hc p d Hh) as [? Ho].
      unfold owners in Ho; simpl in Ho. lia.
    + intros Hqe. by apply Hc.
  - intros a w q. rewrite lookup_insert. case_decide.
    + intros [= <-] Hq. assert (q = p) as -> by congruence.
      by rewrite lookup_insert_eq.
    + intros Ha Hw. rewrite lookup_insert. case_decide; [done|]. by eapply Hd.
Qed.

(** Ownership passes from the [Value] at [other] to the one constructed at
    [this]. *)
Lemma Inv_transfer vs h del this other o v o' :
  Inv (mkState vs h del) → vs !! this = None → vs !! other = Some o →
  payload v = payload o → payload o' = None →
  Inv (mkState (<[other := o']> (<[this := v]> vs)) h del).
Proof.
  intros [Hc Hd] Hf Ho Hv Ho'.
  assert (Hne : this ≠ other) by congruence.
  split; simpl in *.
  - intros q e Hqe. unfold owners; simpl.
    pose proof (count_owners_insert (<[this := v]> vs) other o' q) as H1.
    rewrite lookup_insert_ne, Ho in H1 by done.
    rewrite (count_owners_insert_fresh vs this v q) in H1 by done.
    rewrite (ind_None o') in H1 by done.
    assert (ind (Some v) q = ind (Some o) q) as Hi by (unfold ind; by rewrite Hv).
    destruct (Hc q e Hqe) as [? Hq]. unfold owners in Hq; simpl in Hq. lia.
  - intros a w q. rewrite lookup_insert. case_decide.
    + intros [= <-]. by rewrite Ho'.
    + rewrite lookup_insert. case_decide.
      * intros [= <-] Hq. rewrite Hv in Hq. by eapply Hd.
      * apply Hd.
Qed.

(** A [Value] that owns nothing ends its life. *)
Lemma Inv_drop_plain vs h del this v :
  Inv (mkState vs h del) → vs !! this = Some v → payload v = None →
  Inv (mkState (delete this vs) h del).
Proof.
  intros [Hc Hd] Hv Hp. split; simpl in *.
  - intros q e Hqe. unfold owners; simpl.
    pose proof (count_owners_delete vs this q) as H1.
    rewrite Hv, ind_None in H1 by done.
    destruct (Hc q e Hqe) as [? Hq]. unfold owners in Hq; simpl in Hq. lia.
  - intros a w q. rewrite lookup_delete. case_decide; [done|]. apply Hd.
Qed.

(** An owner ends its life and the payload object, which has other owners,
    has its count lowered by one. *)
Lemma Inv_release vs h del this v p d :
  Inv (mkState vs h del) → vs !! this = Some v → payload v = Some p →
  h !! p = Some d → copyCount_ d ≠ 0 →
  Inv (mkState (delete this vs)
               (<[p := mkValueData (dynamic_class d) (copyCount_ d - 1)]> h) del).
Proof.
  intros [Hc Hd] Hv Hp Hh Hn. split; simpl in *.
  - intros q e. unfold owners; simpl.
    pose proof (count_owners_delete vs this q) as H1.
    rewrite Hv, (ind_Some _ p) in H1 by done.
    rewrite lookup_insert. case_decide as Hq.
    + intros [= <-]. simpl. subst q. destruct (Hc p d Hh) as [? Ho].
      unfold owners in Ho; simpl in Ho. lia.
    + intros Hqe. destruct (Hc q e Hqe) as [? Ho].
      unfold owners in Ho; simpl in Ho. lia.
  - intros a w q. rewrite lookup_delete. case_decide; [done|].
    intros Ha Hw. rewrite lookup_insert. case_decide; [done|]. by eapply Hd.
Qed.

(** The last owner ends its life and the payload object is freed. *)
Lemma Inv_free vs h del this v p d :
  Inv (mkState vs h del) → vs !! this = Some v → payload v = Some p →
  h !! p = Some d → copyCount_ d = 0 →
  Inv (mkState (delete this vs) (delete p h) (p :: del)).
Proof.
  intros [Hc Hd] Hv Hp Hh Hn. split; simpl in *.
  - intros q e. rewrite lookup_delete. case_decide as Hq; [done|].
    intros Hqe. unfold owners; simpl.
    pose proof (count_owners_delete vs this q) as H1.
    rewrite Hv, (ind_Some _ p) in H1 by done.
    rewrite decide_False in H1 by done.
    destruct (Hc q e Hqe) as [? Ho]. unfold owners in Ho; simpl in Ho. lia.
  - intros a w q. rewrite lookup_delete. case_decide as Ha; [done|].
    intros Hw Hq. rewrite lookup_delete. case_decide as Hpq.
    + subst q. exfalso.
      pose proof (count_owners_delete vs this p) as H1.
      rewrite Hv, (ind_Some _ p), decide_True in H1 by done.
      destruct (Hc p d Hh) as [_ Ho]. unfold owners in Ho; simpl in Ho.
      assert (0 < count_owners (delete this vs) p)%nat; [|lia].
      apply (count_owners_pos _ a w); [|done]. by rewrite lookup_delete_ne.
    + by eapply Hd.
Qed.

Lemma Value_copy_Inv σ this other σ' :
  Inv σ → values σ !! this = None →
  Value_copy this other σ = Ok (tt, σ') → Inv σ'.
Proof.
  destruct σ as [vs h del]; simpl. intros HI Hf. unfold_model; simpl.
  destruct (vs !! other) as [[t u]|] eqn:Eo; [|done].
  destruct t; simpl; destruct u; simpl; try done;
    try (intros [= <-]; by apply Inv_construct_plain);
    (destruct (h !! p) as [d|] eqn:Eh; simpl; [|done]);
    (case_decide; [done|]); simpl; intros [= <-]; by apply Inv_share.
Qed.

Lemma Value_move_Inv σ this other σ' :
  Inv σ → values σ !! this = None →
  Value_move this other σ = Ok (tt, σ') → Inv σ'.
Proof.
  destruct σ as [vs h del]; simpl. intros HI Hf. unfold_model; simpl.
  destruct (vs !! other) as [[t u]|] eqn:Eo; [|done].
  assert (this ≠ other) by congruence.
  destruct t; simpl; destruct u; simpl; try done;
    try (intros [= <-]; by apply Inv_construct_plain);
    rewrite lookup_insert_ne, Eo by done; simpl; intros [= <-];
    by eapply Inv_transfer.
Qed.

Lemma Value_dtor_Inv σ this σ' :
  Inv σ → Value_dtor this σ = Ok (tt, σ') →
  Inv σ' ∧ values σ' !! this = None.
Proof.
  destruct σ as [vs h del]; simpl. intros HI. unfold_model; simpl.
  destruct (vs !! this) as [[t u]|] eqn:Ev; [|done].
  destruct t; simpl; destruct u; simpl; try done;
    try (intros [= <-]; simpl; split;
         [by eapply Inv_drop_plain | apply lookup_delete_eq]);
    (destruct (h !! p) as [d|] eqn:Eh; simpl; [|done]);
    (case_decide as Hc; simpl;
     [|case_decide; [done|]; simpl]);
    intros [= <-]; simpl; (split; [|apply lookup_delete_eq]);
    first [by eapply Inv_free | by eapply Inv_release].
Qed.

Lemma operator_assign_Inv T σ this other σ' :
  Inv σ → operator_assign T this other σ = Ok (tt, σ') → Inv σ'.
Proof.
  intros HI H. unfold operator_assign in H.
  apply bind_Ok_inv in H as (t & σ1 & Hl1 & H).
  apply bind_Ok_inv in H as ([] & σ2 & Ha1 & H).
  apply bind_Ok_inv in H as (o & σ3 & Hl2 & H).
  apply bind_Ok_inv in H as ([] & σ4 & Ha2 & H).
  assert (σ4 = σ) as ->.
  { unfold load, assert in *. repeat case_match; simplify_eq; done. }
  case_decide.
  - unfold mret, M_ret in H. by simplify_eq.
  - apply bind_Ok_inv in H as ([] & σ5 & Hd & H).
    apply Value_dtor_Inv in Hd as [HI5 Hf]; [|done].
    destruct T; simpl in H;
      [by eapply Value_copy_Inv | by eapply Value_move_Inv].
Qed.

Lemma exec_Ok_unit (m : M unit) σ σ' :
  m σ = Ok (tt, σ') → exec m σ = Ok σ'.
Proof. intros E. unfold exec. by rewrite E. Qed.

Lemma exec_Ok_inv (m : M unit) σ σ' :
  exec m σ = Ok σ' → m σ = Ok (tt, σ').
Proof.
  unfold exec. destruct (m σ) as [[[] ?]| |]; [|done..]. by intros [= ->].
Qed.

Lemma run_op_Inv A op σ σ' :
  Inv σ → well_placed op σ = true → exec (run_op A op) σ = Ok σ' → Inv σ'.
Proof.
  intros HI Hw H. apply exec_Ok_inv in H.
  destruct op; unfold well_placed in Hw; simpl in Hw, H;
    try apply bool_decide_eq_true_1 in Hw.
  - destruct σ. unfold_model. simplify_eq. by apply Inv_construct_plain.
  - destruct σ. unfold_model. simplify_eq. by apply Inv_construct_plain.
  - destruct σ. unfold_model. simplify_eq. by apply Inv_construct_plain.
  - destruct σ. unfold_model. simplify_eq. by apply Inv_construct_plain.
  - destruct σ. unfold_model. simplify_eq. by apply Inv_construct_plain.
  - destruct σ as [vs h del].
    destruct valueType; unfold_model; simpl in *; simplify_eq;
      (apply Inv_make; [done|done|apply new_address_fresh|done]).
  - by eapply Value_copy_Inv.
  - by eapply Value_move_Inv.
  - by eapply Value_dtor_Inv.
  - by eapply operator_assign_Inv.
  - apply bind_Ok_inv in H as (r & σ1 & Ht & H).
    apply tryDereference_Ok_inv in Ht as [-> _].
    unfold mret, M_ret in H. by simplify_eq.
  - assert (σ' = σ) as ->; [|done].
    destruct valueType; unfold_model;
      repeat case_match; simplify_eq; done.
  - assert (σ' = σ) as ->; [|done].
    destruct valueType; unfold_model;
      repeat case_match; simplify_eq; done.
  - assert (σ' = σ) as ->; [|done].
    destruct valueType; unfold_model;
      repeat case_match; simplify_eq; done.
Qed.

(** ** Further properties: the operations evaluated *)

Lemma State_eta σ : mkState (values σ) (heap σ) (deleted σ) = σ.
Proof. by destruct σ. Qed.

Lemma ValueData_eta d : mkValueData (dynamic_class d) (copyCount_ d) = d.
Proof. by destruct d. Qed.

Lemma Value_copy_heap_eval σ v2 v1 o p d :
  values σ !! v1 = Some o → payload o = Some p → heap σ !! p = Some d →
  copyCount_ d ≠ INT_MAX →
  Value_copy v2 v1 σ
  = Ok (tt, mkState (<[v2 := o]> (values σ))
                    (<[p := mkValueData (dynamic_class d) (copyCount_ d + 1)]>
                       (heap σ))
                    (deleted σ)).
Proof.
  intros Ev Hp Hd Hc.
  destruct (payload_Some _ _ Hp) as (_ & [->|[->|[->| ->]]]);
    unfold_model; rewrite Ev; simpl; rewrite Hd; by case_decide.
Qed.

Lemma Value_move_heap_eval σ v2 v o p :
  values σ !! v = Some o → payload o = Some p → v2 ≠ v →
  Value_move v2 v σ
  = Ok (tt, mkState (<[v := mkValue Type_.Null (union_ o)]>
                       (<[v2 := o]> (values σ)))
                    (heap σ) (deleted σ)).
Proof.
  intros Ev Hp Hne.
  destruct (payload_Some _ _ Hp) as (_ & [->|[->|[->| ->]]]);
    unfold_model; rewrite Ev; simpl;
    by rewrite lookup_insert_ne, Ev by done.
Qed.

Lemma Value_dtor_plain_eval σ this v :
  values σ !! this = Some v → is_heap_kind (type_ v) = false →
  Value_dtor this σ
  = Ok (tt, mkState (delete this (values σ)) (heap σ) (deleted σ)).
Proof. intros Ev Hk. by rewrite (Value_dtor_no_payload _ _ v). Qed.

Lemma Value_dtor_shared_eval σ this v p d :
  values σ !! this = Some v → payload v = Some p → heap σ !! p = Some d →
  0 < copyCount_ d →
  Value_dtor this σ
  = Ok (tt, mkState (delete this (values σ))
                    (<[p := mkValueData (dynamic_class d) (copyCount_ d - 1)]>
                       (heap σ))
                    (deleted σ)).
Proof.
  intros Ev Hp Hd Hc. rewrite (Value_dtor_releases _ _ v p) by done.
  unfold_model. rewrite Hd.
  case_decide; [lia|]. case_decide; [unfold INT_MIN in *; lia|]. done.
Qed.

Lemma Value_dtor_last_eval σ this v p d :
  values σ !! this = Some v → payload v = Some p → heap σ !! p = Some d →
  copyCount_ d = 0 →
  Value_dtor this σ
  = Ok (tt, mkState (delete this (values σ)) (delete p (heap σ))
                    (p :: deleted σ)).
Proof.
  intros Ev Hp Hd Hc. rewrite (Value_dtor_releases _ _ v p) by done.
  unfold_model. rewrite Hd. by case_decide.
Qed.

Lemma payload_heap_kind v :
  well_tagged v = true → is_heap_kind (type_ v) = true →
  ∃ p, payload v = Some p.
Proof. destruct v as [[] []]; unfold payload; simpl; try done; eauto. Qed.

Lemma payload_None_heap_kind v :
  payload v = None → well_tagged v = true → is_heap_kind (type_ v) = false.
Proof. destruct v as [[] []]; unfold payload; simpl; done. Qed.

(** ** Further properties: copies, moves and their undoing *)

(** X1: copy-constructing from a [Value] tagged [Null], [Boolean],
    [Integer] or [FloatingPoint] does exactly what move-constructing from it
    does: the new [Value] gets the tag and the scalar, the source and the
    heap are not written. *)
Theorem copy_and_move_agree_on_scalars (σ : State) (v2 v1 : ptr) (o : Value) :
  values σ !! v1 = Some o →
  v2 ≠ v1 →
  well_tagged o = true →
  is_scalar (type_ o) = true →
  ∃ n,
    Value_copy v2 v1 σ
    = Ok (tt, mkState (<[v2 := n]> (values σ)) (heap σ) (deleted σ)) ∧
    Value_move v2 v1 σ = Value_copy v2 v1 σ ∧
    type_ n = type_ o ∧
    (type_ o ≠ Type_.Null → union_ n = union_ o) ∧
    <[v2 := n]> (values σ) !! v1 = Some o.
Proof.
  intros Ev Hne Hwt Hs.
  destruct o as [[] []]; try done; eexists;
    (split; [unfold_model; rewrite Ev; simpl; reflexivity |]);
    (split; [unfold_model; rewrite Ev; simpl; reflexivity |]);
    simpl; rewrite lookup_insert_ne by done; done.
Qed.

Lemma copy_and_move_agree_on_scalars_witness :
  ∃ n,
    Value_copy 3 2 one_String_and_42
    = Ok (tt, mkState (<[3%positive := n]> (values one_String_and_42))
                      (heap one_String_and_42) (deleted one_String_and_42)) ∧
    Value_move 3 2 one_String_and_42 = Value_copy 3 2 one_String_and_42 ∧
    type_ n = Type_.Integer ∧
    (Type_.Integer ≠ Type_.Null → union_ n = integer_ 42) ∧
    <[3%positive := n]> (values one_String_and_42) !! 2%positive
    = Some (mkValue Type_.Integer (integer_ 42)).
Proof.
  apply (copy_and_move_agree_on_scalars one_String_and_42 3 2
           (mkValue Type_.Integer (integer_ 42)));
    [reflexivity|discriminate|reflexivity|reflexivity].
Defined.

(** X2: copy-constructing a [Value] from an owner of a payload object and
    then destroying the copy leaves the memory exactly as it was: same
    [Value]s, same share count, nothing freed. *)
Theorem copy_then_destroy_restores (σ : State) (v2 v1 : ptr) (o : Value)
    (p : ptr) (d : ValueData) :
  values σ !! v1 = Some o →
  payload o = Some p →
  heap σ !! p = Some d →
  0 ≤ copyCount_ d < INT_MAX →
  values σ !! v2 = None →
  exec (Value_copy v2 v1;; Value_dtor v2) σ = Ok σ.
Proof.
  intros Ev Hp Hd Hc Hf.
  rewrite (exec_bind _ _ _ _ _
             (Value_copy_heap_eval σ v2 v1 o p d Ev Hp Hd ltac:(lia))).
  erewrite exec_Ok_unit;
    [|apply (Value_dtor_shared_eval _ v2 o p
               (mkValueData (dynamic_class d) (copyCount_ d + 1)));
      simpl; rewrite ?lookup_insert_eq; try done; lia].
  simpl. rewrite delete_insert_id by done. rewrite insert_insert_eq.
  rewrite Z.add_simpl_r, ValueData_eta, insert_id by done.
  by rewrite State_eta.
Qed.

Lemma copy_then_destroy_restores_witness :
  exec (Value_copy 3 1;; Value_dtor 3) one_String_and_42 = Ok one_String_and_42.
Proof.
  apply (copy_then_destroy_restores one_String_and_42 3 1
           (mkValue Type_.String (string_ 7)) 7 (mkValueData String 0));
    [reflexivity|reflexivity|reflexivity|unfold INT_MAX; simpl; lia|reflexivity].
Defined.

(** X3: after move-constructing [v2] from an owner [v], destroying the
    moved-from [v] releases nothing: the heap and the trace of frees are as
    before the move and [v2] holds what [v] held. *)
Theorem moved_from_is_destroyed_without_release (σ : State) (v2 v : ptr)
    (o : Value) (p : ptr) :
  values σ !! v = Some o →
  payload o = Some p →
  v2 ≠ v →
  exec (Value_move v2 v;; Value_dtor v) σ
  = Ok (mkState (delete v (<[v2 := o]> (values σ))) (heap σ) (deleted σ)).
Proof.
  intros Ev Hp Hne.
  rewrite (exec_bind _ _ _ _ _ (Value_move_heap_eval σ v2 v o p Ev Hp Hne)).
  erewrite exec_Ok_unit;
    [|apply (Value_dtor_plain_eval _ v (mkValue Type_.Null (union_ o)));
      simpl; [apply lookup_insert_eq|done]].
  simpl. by rewrite delete_insert_eq.
Qed.

Lemma moved_from_is_destroyed_without_release_witness :
  exec (Value_move 3 1;; Value_dtor 1) one_String_and_42
  = Ok (mkState (delete 1%positive
                   (<[3%positive := mkValue Type_.String (string_ 7)]>
                      (values one_String_and_42)))
                (heap one_String_and_42) (deleted one_String_and_42)).
Proof.
  apply (moved_from_is_destroyed_without_release one_String_and_42 3 1
           (mkValue Type_.String (string_ 7)) 7);
    [reflexivity|reflexivity|discriminate].
Defined.

(** X4: a [Value] made by any of the four factories and destroyed at once
    frees the object the factory allocated: the heap is as before and the
    trace of frees has gained that one address. *)
Theorem make_then_destroy_frees {Args : Type} (A : Allocator) (args : Args)
    (this : ptr) (σ : State) :
  Forall (λ make : Allocator → Args → ptr → M unit,
            exec (make A args this;; Value_dtor this) σ
            = Ok (mkState (delete this (values σ)) (heap σ)
                          (new_address A (heap σ) :: deleted σ)))
         [MakeString; MakeArray; MakeDictionary; MakeClosure].
Proof.
  assert (E : exec (VALUE_MAKER String A args this;; Value_dtor this) σ
              = Ok (mkState (delete this (values σ)) (heap σ)
                            (new_address A (heap σ) :: deleted σ))).
  { erewrite exec_bind; [|reflexivity].
    erewrite exec_Ok_unit;
      [|apply (Value_dtor_last_eval _ this
                 (mkValue Type_.String (string_ (new_address A (heap σ))))
                 (new_address A (heap σ)) (mkValueData String 0));
        simpl; rewrite ?lookup_insert_eq; done].
    simpl. rewrite delete_insert_eq.
    by rewrite delete_insert_id by apply new_address_fresh. }
  repeat apply Forall_cons_2; [exact E..|apply Forall_nil_2].
Qed.

Lemma Value_dtor_undoes_copy σ v2 o p d :
  values σ !! v2 = None → payload o = Some p → heap σ !! p = Some d →
  0 ≤ copyCount_ d →
  Value_dtor v2
    (mkState (<[v2 := o]> (values σ))
             (<[p := mkValueData (dynamic_class d) (copyCount_ d + 1)]> (heap σ))
             (deleted σ))
  = Ok (tt, σ).
Proof.
  intros Hf Hp Hd Hc.
  rewrite (Value_dtor_shared_eval _ v2 o p
             (mkValueData (dynamic_class d) (copyCount_ d + 1)));
    simpl; rewrite ?lookup_insert_eq; try done; [|lia].
  rewrite delete_insert_id by done. rewrite insert_insert_eq.
  rewrite Z.add_simpl_r, ValueData_eta, insert_id by done.
  by rewrite State_eta.
Qed.

Lemma with_copies_restores l :
  ∀ σ src o p d,
    values σ !! src = Some o → payload o = Some p → heap σ !! p = Some d →
    0 ≤ copyCount_ d → copyCount_ d + Z.of_nat (length l) ≤ INT_MAX →
    NoDup l → Forall (λ a, values σ !! a = None) l →
    exec (with_copies l src (mret tt)) σ = Ok σ.
Proof.
  induction l as [|a l IH]; intros σ src o p d Ev Hp Hd Hc Hn Hnd Hfree.
  - reflexivity.
  - apply NoDup_cons in Hnd as [Ha Hnd].
    apply Forall_cons in Hfree as [Hfa Hfree].
    simpl length in Hn.
    change (with_copies (a :: l) src (mret tt))
      with (Value_copy a src;; with_copies l src (mret tt);; Value_dtor a).
    rewrite (exec_bind _ _ _ _ _
               (Value_copy_heap_eval σ a src o p d Ev Hp Hd ltac:(lia))).
    rewrite (exec_seq _ _ _
               (mkState (<[a := o]> (values σ))
                  (<[p := mkValueData (dynamic_class d) (copyCount_ d + 1)]>
                     (heap σ))
                  (deleted σ))).
    + apply exec_Ok_unit. by apply Value_dtor_undoes_copy.
    + apply (IH _ src o p (mkValueData (dynamic_class d) (copyCount_ d + 1)));
        simpl; try done; try lia.
      * rewrite lookup_insert_ne; [done|congruence].
      * apply lookup_insert_eq.
      * apply Forall_forall. intros b Hin.
        rewrite lookup_insert_ne by (intros ->; by apply Ha).
        by apply (proj1 (Forall_forall _ _) Hfree).
Qed.

(** X5: copies of an owner constructed in nested scopes, at distinct free
    addresses, and destroyed on the way out leave the memory as it was; if
    the owner was the sole one, destroying it afterwards frees the payload
    object, once. *)
Theorem scoped_copies_release_exactly_once (σ : State) (l : list ptr)
    (src : ptr) (o : Value) (p : ptr) (d : ValueData) :
  values σ !! src = Some o →
  payload o = Some p →
  heap σ !! p = Some d →
  copyCount_ d = 0 →
  Z.of_nat (length l) ≤ INT_MAX →
  NoDup l →
  Forall (λ a, values σ !! a = None) l →
  exec (with_copies l src (mret tt)) σ = Ok σ ∧
  exec (with_copies l src (mret tt);; Value_dtor src) σ
  = Ok (mkState (delete src (values σ)) (delete p (heap σ)) (p :: deleted σ)).
Proof.
  intros Ev Hp Hd Hc Hn Hnd Hfree.
  assert (E : exec (with_copies l src (mret tt)) σ = Ok σ)
    by (apply (with_copies_restores l σ src o p d); try done; lia).
  split; [done|]. rewrite (exec_seq _ _ _ _ E).
  apply exec_Ok_unit. by apply (Value_dtor_last_eval _ _ o p d).
Qed.

Lemma scoped_copies_release_exactly_once_witness :
  exec (with_copies [3; 4; 5]%positive 1 (mret tt)) one_String_and_42
  = Ok one_String_and_42 ∧
  exec (with_copies [3; 4; 5]%positive 1 (mret tt);; Value_dtor 1)
       one_String_and_42
  = Ok (mkState (delete 1%positive (values one_String_and_42))
                (delete 7%positive (heap one_String_and_42))
                (7%positive :: deleted one_String_and_42)).
Proof.
  apply (scoped_copies_release_exactly_once one_String_and_42
           [3; 4; 5]%positive 1 (mkValue Type_.String (string_ 7)) 7
           (mkValueData String 0));
    [reflexivity|reflexivity|reflexivity|reflexivity
    |unfold INT_MAX; simpl; lia| |].
  - compute_done.
  - repeat (apply Forall_cons; split; [reflexivity|]). apply Forall_nil_2.
Defined.

Lemma Value_dtor_values σ this σ' :
  Value_dtor this σ = Ok (tt, σ') → values σ' = delete this (values σ).
Proof.
  unfold_model. destruct (values σ !! this) as [[t u]|]; [|done].
  destruct t; simpl; destruct u; simpl; try done;
    try (by intros [= <-]);
    (destruct (heap σ !! p) as [d|]; simpl; [|done]);
    repeat (case_decide; simpl; try done); by intros [= <-].
Qed.

(** X6: a Reference owns nothing. Constructing one and destroying it leaves
    the memory as it was; while the referent (not itself a Reference) lives,
    [tryDereference] returns it; once the referent has been destroyed,
    [tryDereference] on the Reference is undefined. *)
Theorem Reference_owns_nothing (σ : State) (r x : ptr) (w : Value) :
  values σ !! r = None →
  values σ !! x = Some w →
  type_ w ≠ Type_.Reference →
  exec (Value_pointer r x;; Value_dtor r) σ = Ok σ ∧
  ∃ σ1,
    Value_pointer r x σ = Ok (tt, σ1) ∧
    heap σ1 = heap σ ∧
    values σ1 !! x = Some w ∧
    tryDereference r σ1 = Ok (x, σ1) ∧
    ∀ σ2, Value_dtor x σ1 = Ok (tt, σ2) → tryDereference r σ2 = Undefined.
Proof.
  intros Hf Ex Hw. assert (r ≠ x) by congruence. split.
  - erewrite exec_bind; [|reflexivity].
    erewrite exec_Ok_unit;
      [|apply (Value_dtor_plain_eval _ r
                 (mkValue Type_.Reference (reference_ x)));
        simpl; [apply lookup_insert_eq|done]].
    simpl. rewrite delete_insert_id by done. by rewrite State_eta.
  - eexists. split; [reflexivity|]. simpl. split_and!; [done| | |].
    + by rewrite lookup_insert_ne.
    + unfold_model; simpl. rewrite lookup_insert_eq. simpl.
      rewrite lookup_insert_ne, Ex by done. by case_bool_decide.
    + intros σ2 Hd. apply Value_dtor_values in Hd. simpl in Hd.
      unfold_model. rewrite Hd.
      rewrite lookup_delete_ne, lookup_insert_eq by done. simpl.
      by rewrite Hd, lookup_delete_eq.
Qed.

Lemma Reference_owns_nothing_witness :
  exec (Value_pointer 3 2;; Value_dtor 3) one_String_and_42
  = Ok one_String_and_42 ∧
  ∃ σ1,
    Value_pointer 3 2 one_String_and_42 = Ok (tt, σ1) ∧
    heap σ1 = heap one_String_and_42 ∧
    values σ1 !! 2%positive = Some (mkValue Type_.Integer (integer_ 42)) ∧
    tryDereference 3 σ1 = Ok (2%positive, σ1) ∧
    ∀ σ2, Value_dtor 2 σ1 = Ok (tt, σ2) → tryDereference 3 σ2 = Undefined.
Proof.
  apply (Reference_owns_nothing one_String_and_42 3 2
           (mkValue Type_.Integer (integer_ 42)));
    [reflexivity|reflexivity|discriminate].
Defined.

Lemma share_then_release_eval σ p C (N : nat) :
  heap σ !! p = Some (mkValueData C 0) → Z.of_nat N ≤ INT_MAX →
  exec (share_then_release N p) σ = Ok (freed σ p).
Proof.
  intros Hp HN. unfold share_then_release.
  rewrite (exec_seq _ _ _ (with_count σ p C (Z.of_nat N))).
  - apply times_destroy_all.
  - rewrite <- (with_count_id σ p _ Hp) at 1. simpl.
    by rewrite times_copy by lia.
Qed.

(** X7: once the last release has freed a payload object, a further
    [destroy] (a double release) or [copy] on it is undefined: both read
    [copyCount_] of an object that is gone. *)
Theorem release_after_free_is_undefined (σ : State) (p : ptr)
    (C : PayloadClass) (N : nat) :
  heap σ !! p = Some (mkValueData C 0) →
  Z.of_nat N ≤ INT_MAX →
  exec (share_then_release N p;; destroy p) σ = Undefined ∧
  exec (share_then_release N p;; copy p;; mret tt) σ = Undefined.
Proof.
  intros Hp HN.
  pose proof (share_then_release_eval σ p C N Hp HN) as E.
  split; rewrite (exec_seq _ _ _ _ E);
    unfold_model; unfold freed; simpl; by rewrite lookup_delete_eq.
Qed.

Lemma release_after_free_is_undefined_witness :
  exec (share_then_release 2 1;; destroy 1) one_fresh_String = Undefined ∧
  exec (share_then_release 2 1;; copy 1;; mret tt) one_fresh_String = Undefined.
Proof.
  apply (release_after_free_is_undefined one_fresh_String 1 String 2);
    [reflexivity|unfold INT_MAX; lia].
Defined.

(** ** Further properties: invariants of whole programs *)

Lemma all_well_tagged_insert vs a v :
  all_well_tagged vs → well_tagged v = true → all_well_tagged (<[a := v]> vs).
Proof.
  intros H Hv b w. rewrite lookup_insert. case_decide.
  - by intros [= <-].
  - apply H.
Qed.

Lemma all_well_tagged_delete vs a :
  all_well_tagged vs → all_well_tagged (delete a vs).
Proof.
  intros H b w. rewrite lookup_delete. case_decide; [done|]. apply H.
Qed.

Lemma Value_copy_well_tagged σ this other σ' :
  all_well_tagged (values σ) → Value_copy this other σ = Ok (tt, σ') →
  all_well_tagged (values σ').
Proof.
  intros H. unfold_model.
  destruct (values σ !! other) as [[t u]|] eqn:Eo; [|done].
  destruct t; simpl; destruct u; simpl; try done;
    try (intros [= <-]; by apply all_well_tagged_insert);
    (destruct (heap σ !! p) as [d|]; simpl; [|done]);
    (case_decide; [done|]); simpl; intros [= <-];
    by apply all_well_tagged_insert.
Qed.

Lemma Value_move_well_tagged σ this other σ' :
  all_well_tagged (values σ) → Value_move this other σ = Ok (tt, σ') →
  all_well_tagged (values σ').
Proof.
  intros H. unfold_model.
  destruct (values σ !! other) as [[t u]|] eqn:Eo; [|done].
  destruct t; simpl; destruct u; simpl; try done;
    try (intros [= <-]; by apply all_well_tagged_insert);
    (destruct (<[this:=_]> (values σ) !! other) as [w|]; simpl; [|done]);
    intros [= <-]; simpl;
    by repeat apply all_well_tagged_insert.
Qed.

Lemma Value_dtor_well_tagged σ this σ' :
  all_well_tagged (values σ) → Value_dtor this σ = Ok (tt, σ') →
  all_well_tagged (values σ').
Proof.
  intros H Hd. rewrite (Value_dtor_values _ _ _ Hd).
  by apply all_well_tagged_delete.
Qed.

Lemma operator_assign_cases T σ this other σ' :
  operator_assign T this other σ = Ok (tt, σ') →
  σ' = σ ∨
  ∃ σ1, Value_dtor this σ = Ok (tt, σ1) ∧
        placement_new T this other σ1 = Ok (tt, σ').
Proof.
  intros H. unfold operator_assign in H.
  apply bind_Ok_inv in H as (t & σ1 & Hl1 & H).
  apply bind_Ok_inv in H as ([] & σ2 & Ha1 & H).
  apply bind_Ok_inv in H as (o & σ3 & Hl2 & H).
  apply bind_Ok_inv in H as ([] & σ4 & Ha2 & H).
  assert (σ4 = σ) as ->.
  { unfold load, assert in *. repeat case_match; simplify_eq; done. }
  case_decide.
  - left. unfold mret, M_ret in H. by simplify_eq.
  - right. apply bind_Ok_inv in H as ([] & σ5 & Hd & H). eauto.
Qed.

Lemma run_op_well_tagged A op σ σ' :
  all_well_tagged (values σ) → exec (run_op A op) σ = Ok σ' →
  all_well_tagged (values σ').
Proof.
  intros HI H. apply exec_Ok_inv in H. destruct op; simpl in H.
  - unfold_model. simplify_eq. by apply all_well_tagged_insert.
  - unfold_model. simplify_eq. by apply all_well_tagged_insert.
  - unfold_model. simplify_eq. by apply all_well_tagged_insert.
  - unfold_model. simplify_eq. by apply all_well_tagged_insert.
  - unfold_model. simplify_eq. by apply all_well_tagged_insert.
  - destruct valueType; unfold_model; simplify_eq;
      by apply all_well_tagged_insert.
  - by eapply Value_copy_well_tagged.
  - by eapply Value_move_well_tagged.
  - by eapply Value_dtor_well_tagged.
  - apply operator_assign_cases in H as [->|(σ1 & Hd & Hn)]; [done|].
    apply Value_dtor_well_tagged in Hd; [|done].
    destruct T; simpl in Hn;
      [by eapply Value_copy_well_tagged | by eapply Value_move_well_tagged].
  - apply bind_Ok_inv in H as (r & σ1 & Ht & H).
    apply tryDereference_Ok_inv in Ht as [-> _].
    unfold mret, M_ret in H. by simplify_eq.
  - assert (σ' = σ) as ->; [|done].
    destruct valueType; unfold_model; repeat case_match; simplify_eq; done.
  - assert (σ' = σ) as ->; [|done].
    destruct valueType; unfold_model; repeat case_match; simplify_eq; done.
  - assert (σ' = σ) as ->; [|done].
    destruct valueType; unfold_model; repeat case_match; simplify_eq; done.
Qed.

(** X8: the tag and the union never disagree. If every live [Value] holds in
    its union the member its tag names, the same is true after any sequence
    of operations; in particular no constructor, move or assignment leaves a
    [Value] whose tag names a member that was not written. *)
Theorem tag_names_the_written_member (A : Allocator) (ops : list Op)
    (σ0 σ : State) :
  all_well_tagged (values σ0) →
  run A ops σ0 = Some σ →
  all_well_tagged (values σ).
Proof.
  revert σ0. induction ops as [|op ops IH]; intros σ0 HI; simpl.
  - by intros [= <-].
  - destruct (well_placed op σ0); [|done].
    destruct (exec (run_op A op) σ0) as [σ1| |] eqn:He; [|done..].
    apply IH. by eapply run_op_well_tagged.
Qed.

Lemma tag_names_the_written_member_witness :
  all_well_tagged (values sample_result).
Proof.
  apply (tag_names_the_written_member first_fit sample_program empty_state
           sample_result).
  - intros a v. simpl. by rewrite lookup_empty.
  - vm_compute; reflexivity.
Defined.

Lemma run_Inv A ops :
  ∀ σ0 σ, Inv σ0 → run A ops σ0 = Some σ → Inv σ.
Proof.
  induction ops as [|op ops IH]; intros σ0 σ HI; simpl.
  - by intros [= <-].
  - destruct (well_placed op σ0) eqn:Hw; [|done].
    destruct (exec (run_op A op) σ0) as [σ1| |] eqn:He; [|done..].
    apply IH. by eapply run_op_Inv.
Qed.

Lemma count_owners_pos_inv vs p :
  (0 < count_owners vs p)%nat →
  ∃ a v, vs !! a = Some v ∧ payload v = Some p.
Proof.
  intros H. unfold count_owners in H.
  destruct (map_size_ne_0_lookup_1 (filter (owns p) vs) ltac:(lia))
    as (a & v & Hv).
  apply map_lookup_filter_Some in Hv as [Hv Ho]. eauto.
Qed.

(** X9: no leak and no orphan. In the memory a program leaves when run from
    the empty one, every live payload object is owned by a live [Value]; so
    once every [Value] has been destroyed no payload object is left. *)
Theorem no_payload_outlives_its_owners (A : Allocator) (ops : list Op)
    (σ : State) :
  run A ops empty_state = Some σ →
  (∀ p d, heap σ !! p = Some d →
          ∃ a v, values σ !! a = Some v ∧ payload v = Some p) ∧
  (values σ = ∅ → heap σ = ∅).
Proof.
  intros Hrun.
  destruct (run_Inv A ops _ _ Inv_empty_state Hrun) as [Hc _].
  assert (Ho : ∀ p d, heap σ !! p = Some d →
                      ∃ a v, values σ !! a = Some v ∧ payload v = Some p).
  { intros p d Hp. destruct (Hc p d Hp) as [Hd Hn]. unfold owners in Hn.
    apply count_owners_pos_inv. lia. }
  split; [done|]. intros He. apply map_empty. intros p.
  destruct (heap σ !! p) as [d|] eqn:Hp; [|done].
  destruct (Ho p d Hp) as (a & v & Ha & _).
  rewrite He, lookup_empty in Ha. done.
Qed.

Lemma no_payload_outlives_its_owners_witness :
  heap sample_dropped_result = ∅.
Proof.
  apply (no_payload_outlives_its_owners first_fit sample_program_dropped
           sample_dropped_result);
    [vm_compute; reflexivity|reflexivity].
Defined.

Lemma Value_dtor_cases σ this v :
  Inv σ → values σ !! this = Some v → well_tagged v = true →
  (payload v = None ∧
   Value_dtor this σ
   = Ok (tt, mkState (delete this (values σ)) (heap σ) (deleted σ))) ∨
  (∃ p d, payload v = Some p ∧ heap σ !! p = Some d ∧
          copyCount_ d = 0 ∧ owners σ p = 1%nat ∧
          Value_dtor this σ
          = Ok (tt, mkState (delete this (values σ)) (delete p (heap σ))
                            (p :: deleted σ))) ∨
  (∃ p d, payload v = Some p ∧ heap σ !! p = Some d ∧
          0 < copyCount_ d ∧ (1 < owners σ p)%nat ∧
          Value_dtor this σ
          = Ok (tt, mkState (delete this (values σ))
                            (<[p := mkValueData (dynamic_class d)
                                                (copyCount_ d - 1)]> (heap σ))
                            (deleted σ))).
Proof.
  intros [Hc Hd] Ev Hwt. destruct (payload v) as [p|] eqn:Hp.
  - destruct (Hd _ _ _ Ev Hp) as [d Hpd].
    destruct (Hc p d Hpd) as [H0 Hn].
    destruct (decide (copyCount_ d = 0)) as [Hz|Hz].
    + right; left. exists p, d. split_and!; try done; [lia|].
      by apply (Value_dtor_last_eval _ _ v p d).
    + right; right. exists p, d. split_and!; try done; [lia|lia|].
      apply (Value_dtor_shared_eval _ _ v p d); try done. lia.
  - left. split; [done|]. apply (Value_dtor_plain_eval _ _ v); [done|].
    by apply payload_None_heap_kind.
Qed.

(** X10: in a memory that satisfies the ownership invariant the destructor
    of a live [Value] always completes, and it frees the payload object
    exactly when the [Value] is its last owner: with other owners alive it
    only lowers the share count of that one object by one, and a [Value]
    that owns nothing leaves the heap alone. *)
Theorem destructor_frees_only_as_last_owner (σ : State) (this : ptr)
    (v : Value) :
  Inv σ →
  values σ !! this = Some v →
  well_tagged v = true →
  ∃ σ',
    Value_dtor this σ = Ok (tt, σ') ∧
    values σ' = delete this (values σ) ∧
    match payload v with
    | None => heap σ' = heap σ ∧ deleted σ' = deleted σ
    | Some p =>
        if decide (owners σ p = 1%nat)
        then heap σ' = delete p (heap σ) ∧ deleted σ' = p :: deleted σ
        else deleted σ' = deleted σ ∧
             ∃ d, heap σ !! p = Some d ∧
                  heap σ'
                  = <[p := mkValueData (dynamic_class d) (copyCount_ d - 1)]>
                      (heap σ)
    end.
Proof.
  intros HI Ev Hwt.
  destruct (Value_dtor_cases σ this v HI Ev Hwt)
    as [[Hp E]|[(p & d & Hp & Hd & Hz & Ho & E)|(p & d & Hp & Hd & Hz & Ho & E)]];
    eexists; (split; [exact E|]); simpl; rewrite Hp; (split; [done|]).
  - done.
  - by rewrite decide_True by done.
  - rewrite decide_False by lia. split; [done|]. by exists d.
Qed.

Lemma Inv_two_owners_and_one : Inv two_owners_and_one.
Proof.
  apply (run_Inv first_fit two_owners_program empty_state);
    [apply Inv_empty_state|vm_compute; reflexivity].
Qed.

Lemma destructor_frees_only_as_last_owner_witness :
  ∃ σ',
    Value_dtor 1 two_owners_and_one = Ok (tt, σ') ∧
    values σ' = delete 1%positive (values two_owners_and_one) ∧
    deleted σ' = deleted two_owners_and_one ∧
    ∃ d, heap two_owners_and_one !! 1%positive = Some d ∧
         heap σ'
         = <[1%positive := mkValueData (dynamic_class d) (copyCount_ d - 1)]>
             (heap two_owners_and_one).
Proof.
  destruct (destructor_frees_only_as_last_owner two_owners_and_one 1
              (mkValue Type_.String (string_ 1)) Inv_two_owners_and_one
              eq_refl eq_refl)
    as (σ' & E & Hv & Hcase).
  exists σ'. split; [exact E|]. split; [exact Hv|]. exact Hcase.
Defined.

(** ** Further properties: destroying a [Value] and constructing it again *)

Lemma below_INT_MAX_delete h p : below_INT_MAX h → below_INT_MAX (delete p h).
Proof.
  intros H q e. rewrite lookup_delete. case_decide; [done|]. apply H.
Qed.

Lemma below_INT_MAX_lower h p d :
  below_INT_MAX h → h !! p = Some d →
  below_INT_MAX (<[p := mkValueData (dynamic_class d) (copyCount_ d - 1)]> h).
Proof.
  intros H Hd q e. rewrite lookup_insert. case_decide.
  - intros [= <-]. simpl. specialize (H p d Hd). lia.
  - apply H.
Qed.

Lemma Value_dtor_total σ this v :
  Inv σ → values σ !! this = Some v → well_tagged v = true →
  ∃ σ1, Value_dtor this σ = Ok (tt, σ1) ∧
        values σ1 = delete this (values σ) ∧
        Inv σ1 ∧
        (below_INT_MAX (heap σ) → below_INT_MAX (heap σ1)).
Proof.
  intros HI Ev Hwt.
  destruct (Value_dtor_cases σ this v HI Ev Hwt)
    as [[Hp E]|[(p & d & Hp & Hd & Hz & Ho & E)|(p & d & Hp & Hd & Hz & Ho & E)]];
    eexists; (split; [exact E|]); (split; [done|]);
    (split; [by apply (Value_dtor_Inv _ _ _ HI E)|]); simpl.
  - done.
  - apply below_INT_MAX_delete.
  - intros H. by apply below_INT_MAX_lower.
Qed.

Lemma not_Reference_cases o :
  well_tagged o = true → type_ o ≠ Type_.Reference →
  (is_scalar (type_ o) = true ∧ payload o = None) ∨ (∃ p, payload o = Some p).
Proof.
  destruct o as [[] []]; unfold payload; simpl; try done; eauto.
Qed.

Lemma scalar_dup σ o :
  well_tagged o = true → is_scalar (type_ o) = true →
  ∃ n, type_ n = type_ o ∧ payload n = None ∧
       (type_ o ≠ Type_.Null → n = o) ∧
       (∀ this other, values σ !! other = Some o →
          Value_copy this other σ
          = Ok (tt, mkState (<[this := n]> (values σ)) (heap σ) (deleted σ)) ∧
          Value_move this other σ
          = Ok (tt, mkState (<[this := n]> (values σ)) (heap σ) (deleted σ))).
Proof.
  intros Hwt Hs. destruct o as [[] []]; try done; eexists;
    (split_and!; [| | |intros this other Ev; split;
                        unfold_model; rewrite Ev; simpl; reflexivity]);
    done.
Qed.

Lemma Value_copy_total σ this other o :
  values σ !! other = Some o → well_tagged o = true →
  type_ o ≠ Type_.Reference →
  (∀ p, payload o = Some p →
        ∃ d, heap σ !! p = Some d ∧ copyCount_ d < INT_MAX) →
  ∃ σ' n, Value_copy this other σ = Ok (tt, σ') ∧
          values σ' = <[this := n]> (values σ) ∧
          type_ n = type_ o ∧ payload n = payload o ∧
          (type_ o ≠ Type_.Null → n = o).
Proof.
  intros Ev Hwt Ht Hlive.
  destruct (not_Reference_cases o Hwt Ht) as [[Hs Hp]|[p Hp]].
  - destruct (scalar_dup σ o Hwt Hs) as (n & Hn1 & Hn2 & Hn3 & Hn4).
    destruct (Hn4 this other Ev) as [E _].
    eexists; exists n. split; [exact E|]. simpl. rewrite Hp. done.
  - destruct (Hlive p Hp) as (d & Hd & Hc).
    eexists; exists o. split;
      [apply (Value_copy_heap_eval σ this other o p d); try done; lia|].
    done.
Qed.

Lemma Value_move_total σ this other o :
  values σ !! other = Some o → well_tagged o = true →
  type_ o ≠ Type_.Reference → this ≠ other →
  ∃ n, Value_move this other σ
       = Ok (tt, mkState
                   (<[other := mkValue (if is_heap_kind (type_ o)
                                        then Type_.Null else type_ o)
                                       (union_ o)]>
                      (<[this := n]> (values σ)))
                   (heap σ) (deleted σ)) ∧
       type_ n = type_ o ∧ payload n = payload o ∧
       (type_ o ≠ Type_.Null → n = o).
Proof.
  intros Ev Hwt Ht Hne.
  destruct (not_Reference_cases o Hwt Ht) as [[Hs Hp]|[p Hp]].
  - destruct (scalar_dup σ o Hwt Hs) as (n & Hn1 & Hn2 & Hn3 & Hn4).
    destruct (Hn4 this other Ev) as [_ E].
    exists n. rewrite E, Hp. split_and!; try done.
    do 3 f_equal. symmetry. apply insert_id.
    rewrite lookup_insert_ne by done. rewrite Ev. f_equal.
    destruct o as [[] ?]; done.
  - exists o. rewrite (Value_move_heap_eval σ this other o p Ev Hp Hne).
    destruct (payload_Some _ _ Hp) as [-> _]. done.
Qed.

(** X11: in a memory that satisfies the ownership invariant, with no share
    count saturated, destroying a live [Value] and copy-constructing a
    [Value] in its storage from another live [Value], not a Reference,
    always completes: the new [Value] has the tag and the payload pointer
    (or scalar) of the source, every other [Value], the source included, is
    as before, and the invariant holds again. *)
Theorem destroy_then_copy_construct_completes (σ : State) (this other : ptr)
    (t o : Value) :
  Inv σ →
  below_INT_MAX (heap σ) →
  values σ !! this = Some t →
  values σ !! other = Some o →
  this ≠ other →
  well_tagged t = true →
  well_tagged o = true →
  type_ o ≠ Type_.Reference →
  ∃ σ' n,
    (Value_dtor this;; Value_copy this other) σ = Ok (tt, σ') ∧
    values σ' = <[this := n]> (values σ) ∧
    type_ n = type_ o ∧
    payload n = payload o ∧
    (type_ o ≠ Type_.Null → n = o) ∧
    Inv σ'.
Proof.
  intros HI Hb Et Eo Hne Hwt Hwo Ho.
  destruct (Value_dtor_total σ this t HI Et Hwt) as (σ1 & Ed & Hv1 & HI1 & Hb1).
  rewrite (bind_Ok _ _ _ _ _ Ed).
  assert (Eo1 : values σ1 !! other = Some o)
    by (by rewrite Hv1, lookup_delete_ne).
  destruct (Value_copy_total σ1 this other o Eo1 Hwo Ho)
    as (σ' & n & Ec & Hv & Hn).
  { intros p Hp. destruct (proj2 HI1 _ _ _ Eo1 Hp) as [d Hd].
    exists d. split; [done|]. by apply (Hb1 Hb p). }
  exists σ', n. split; [done|]. split_and!; try apply Hn.
  - by rewrite Hv, Hv1, insert_delete_eq.
  - apply (Value_copy_Inv σ1 this other σ' HI1); [|done].
    rewrite Hv1. apply lookup_delete_eq.
Qed.

Lemma destroy_then_copy_construct_completes_witness :
  ∃ σ' n,
    (Value_dtor 3;; Value_copy 3 1) two_owners_and_one = Ok (tt, σ') ∧
    values σ' = <[3%positive := n]> (values two_owners_and_one) ∧
    type_ n = Type_.String ∧
    payload n = Some 1%positive ∧
    (Type_.String ≠ Type_.Null → n = mkValue Type_.String (string_ 1)) ∧
    Inv σ'.
Proof.
  apply (destroy_then_copy_construct_completes two_owners_and_one 3 1
           (mkValue Type_.String (string_ 2))
           (mkValue Type_.String (string_ 1)) Inv_two_owners_and_one);
    try reflexivity; try discriminate.
  change (map_Forall (λ _ d, copyCount_ d < INT_MAX) (heap two_owners_and_one)).
  compute_done.
Defined.

(** X12: in a memory that satisfies the ownership invariant, destroying a
    live [Value] and move-constructing a [Value] in its storage from another
    live [Value], not a Reference, always completes: the new [Value] has the
    tag and the payload pointer or scalar of the source; the source's tag
    becomes [Null] if it was a heap kind and the source is unchanged
    otherwise; the heap is exactly the one the destructor left, so no share
    count other than that of the destroyed [Value]'s payload changes. *)
Theorem destroy_then_move_construct_completes (σ : State) (this other : ptr)
    (t o : Value) :
  Inv σ →
  values σ !! this = Some t →
  values σ !! other = Some o →
  this ≠ other →
  well_tagged t = true →
  well_tagged o = true →
  type_ o ≠ Type_.Reference →
  ∃ σ1 σ' n,
    Value_dtor this σ = Ok (tt, σ1) ∧
    (Value_dtor this;; Value_move this other) σ = Ok (tt, σ') ∧
    values σ'
    = <[other := mkValue (if is_heap_kind (type_ o)
                          then Type_.Null else type_ o) (union_ o)]>
        (<[this := n]> (values σ)) ∧
    heap σ' = heap σ1 ∧
    deleted σ' = deleted σ1 ∧
    type_ n = type_ o ∧
    payload n = payload o ∧
    (type_ o ≠ Type_.Null → n = o) ∧
    Inv σ'.
Proof.
  intros HI Et Eo Hne Hwt Hwo Ho.
  destruct (Value_dtor_total σ this t HI Et Hwt) as (σ1 & Ed & Hv1 & HI1 & _).
  rewrite (bind_Ok _ _ _ _ _ Ed).
  assert (Eo1 : values σ1 !! other = Some o)
    by (by rewrite Hv1, lookup_delete_ne).
  destruct (Value_move_total σ1 this other o Eo1 Hwo Ho Hne)
    as (n & Em & Hn1 & Hn2 & Hn3).
  exists σ1. eexists. exists n. split; [done|]. split; [exact Em|]. simpl.
  split_and!; try done.
  - by rewrite Hv1, insert_delete_eq.
  - apply (Value_move_Inv σ1 this other _ HI1); [|done].
    rewrite Hv1. apply lookup_delete_eq.
Qed.

Lemma destroy_then_move_construct_completes_witness :
  ∃ σ1 σ' n,
    Value_dtor 3 two_owners_and_one = Ok (tt, σ1) ∧
    (Value_dtor 3;; Value_move 3 1) two_owners_and_one = Ok (tt, σ') ∧
    values σ'
    = <[1%positive := mkValue Type_.Null (string_ 1)]>
        (<[3%positive := n]> (values two_owners_and_one)) ∧
    heap σ' = heap σ1 ∧
    deleted σ' = deleted σ1 ∧
    type_ n = Type_.String ∧
    payload n = Some 1%positive ∧
    (Type_.String ≠ Type_.Null → n = mkValue Type_.String (string_ 1)) ∧
    Inv σ'.
Proof.
  apply (destroy_then_move_construct_completes two_owners_and_one 3 1
           (mkValue Type_.String (string_ 2))
           (mkValue Type_.String (string_ 1)) Inv_two_owners_and_one);
    try reflexivity; discriminate.
Defined.

(** X13: destroying a [Value] and copy-constructing it again, in the same
    storage, from another [Value] that holds the same tag and shares the
    same payload object leaves the memory exactly as it was: the release by
    the destructor and the share by the copy constructor cancel. *)
Theorem destroy_then_copy_from_co_owner_is_neutral (σ : State)
    (this other : ptr) (o : Value) (p : ptr) (d : ValueData) :
  values σ !! this = Some o →
  values σ !! other = Some o →
  this ≠ other →
  payload o = Some p →
  heap σ !! p = Some d →
  0 < copyCount_ d ≤ INT_MAX →
  (Value_dtor this;; Value_copy this other) σ = Ok (tt, σ).
Proof.
  intros Et Eo Hne Hp Hd Hc.
  rewrite (bind_Ok _ _ _ _ _
             (Value_dtor_shared_eval σ this o p d Et Hp Hd ltac:(lia))).
  rewrite (Value_copy_heap_eval _ this other o p
             (mkValueData (dynamic_class d) (copyCount_ d - 1)));
    simpl; rewrite ?lookup_insert_eq, ?lookup_delete_ne; try done; [|lia].
  rewrite insert_delete_eq, insert_insert_eq, Z.sub_add, ValueData_eta.
  by rewrite !insert_id, State_eta by done.
Qed.

Lemma destroy_then_copy_from_co_owner_is_neutral_witness :
  (Value_dtor 2;; Value_copy 2 1) two_owners_and_one
  = Ok (tt, two_owners_and_one).
Proof.
  apply (destroy_then_copy_from_co_owner_is_neutral two_owners_and_one 2 1
           (mkValue Type_.String (string_ 1)) 1 (mkValueData String 1));
    try reflexivity; [discriminate|unfold INT_MAX; simpl; lia].
Defined.

(** ** The ownership invariant and the width of the share count *)














(** ** Further properties: where objects are allocated and freed *)

Lemma Value_copy_frame σ this other σ' :
  Value_copy this other σ = Ok (tt, σ') →
  dom (heap σ') = dom (heap σ) ∧ deleted σ' = deleted σ.
Proof.
  unfold_model. destruct (values σ !! other) as [[t u]|]; [|done].
  destruct t; simpl; destruct u; simpl; try done;
    try (by intros [= <-]);
    (destruct (heap σ !! p) as [d|] eqn:Hd; simpl; [|done]);
    (case_decide; [done|]); simpl; intros [= <-]; simpl;
    (split; [|done]); by apply dom_insert_lookup_L.
Qed.

Lemma Value_move_frame σ this other σ' :
  Value_move this other σ = Ok (tt, σ') →
  heap σ' = heap σ ∧ deleted σ' = deleted σ.
Proof.
  unfold_model. destruct (values σ !! other) as [[t u]|]; [|done].
  destruct t; simpl; destruct u; simpl; try done;
    try (by intros [= <-]);
    (destruct (<[this:=_]> (values σ) !! other) as [w|]; simpl; [|done]);
    by intros [= <-].
Qed.

Lemma Value_dtor_frame σ this σ' :
  Value_dtor this σ = Ok (tt, σ') →
  ∃ l, deleted σ' = l ++ deleted σ ∧ (length l ≤ 1)%nat ∧
       dom (heap σ') = dom (heap σ) ∖ list_to_set l.
Proof.
  unfold_model. destruct (values σ !! this) as [[t u]|]; [|done].
  destruct t; simpl; destruct u; simpl; try done;
    try (intros [= <-]; exists []; simpl; split_and!;
         [done|lia|by rewrite difference_empty_L]);
    (destruct (heap σ !! p) as [d|] eqn:Hd; simpl; [|done]);
    (case_decide; simpl; [|case_decide; [done|]; simpl]);
    intros [= <-]; simpl;
    first [ exists [p]; simpl; split_and!; [done|lia|];
            by rewrite dom_delete_L, union_empty_r_L
          | exists []; simpl; split_and!; [done|lia|];
            rewrite difference_empty_L; by apply dom_insert_lookup_L ].
Qed.

Lemma inspects_reads_only A op σ σ' :
  inspects op = true → run_op A op σ = Ok (tt, σ') → σ' = σ.
Proof.
  intros Hi H. destruct op; try done; simpl in H.
  - apply bind_Ok_inv in H as (r & σ1 & Ht & H).
    apply tryDereference_Ok_inv in Ht as [-> _].
    unfold mret, M_ret in H. by simplify_eq.
  - destruct valueType; unfold_model; repeat case_match; simplify_eq; done.
  - destruct valueType; unfold_model; repeat case_match; simplify_eq; done.
  - destruct valueType; unfold_model; repeat case_match; simplify_eq; done.
Qed.

(** X14: only the factories allocate and only destruction frees. A factory
    call adds exactly the address [operator new] returned and frees nothing;
    every other operation allocates nothing and frees at most one object,
    and none unless it is a destructor call or an assignment; the queries
    ([tryDereference], predicates, getters) leave the memory untouched. *)
Theorem allocation_and_release_sites (A : Allocator) (op : Op) (σ σ' : State) :
  exec (run_op A op) σ = Ok σ' →
  (allocates op = true →
   dom (heap σ') = {[ new_address A (heap σ) ]} ∪ dom (heap σ) ∧
   deleted σ' = deleted σ) ∧
  (allocates op = false →
   ∃ l, deleted σ' = l ++ deleted σ ∧ (length l ≤ 1)%nat ∧
        dom (heap σ') = dom (heap σ) ∖ list_to_set l ∧
        (destroys op = false → l = [])) ∧
  (inspects op = true → σ' = σ).
Proof.
  intros H. apply exec_Ok_inv in H.
  split_and!; [| |intros Hi; by apply (inspects_reads_only A op)].
  - destruct op; try done. intros _.
    destruct valueType; simpl in H; unfold_model; simplify_eq; simpl;
      by rewrite dom_insert_L.
  - intros Ha.
    assert (Hsame : dom (heap σ') = dom (heap σ) ∧ deleted σ' = deleted σ →
            ∃ l, deleted σ' = l ++ deleted σ ∧ (length l ≤ 1)%nat ∧
                 dom (heap σ') = dom (heap σ) ∖ list_to_set l ∧
                 (destroys op = false → l = [])).
    { intros [Hd Hl]. exists []. simpl.
      split_and!; [done|lia|by rewrite difference_empty_L|done]. }
    destruct (inspects op) eqn:Hi.
    { apply (inspects_reads_only A op) in H as ->; [|done]. by apply Hsame. }
    destruct op; try done; simpl in H.
    + apply Hsame. unfold_model. by simplify_eq.
    + apply Hsame. unfold_model. by simplify_eq.
    + apply Hsame. unfold_model. by simplify_eq.
    + apply Hsame. unfold_model. by simplify_eq.
    + apply Hsame. unfold_model. by simplify_eq.
    + apply Hsame. by apply (Value_copy_frame _ _ _ _ H).
    + apply Hsame. destruct (Value_move_frame _ _ _ _ H) as [-> ->]. done.
    + destruct (Value_dtor_frame _ _ _ H) as (l & Hl & Hn & Hd).
      exists l. done.
    + apply operator_assign_cases in H as [->|(σ1 & Hd & Hn)].
      * exists []. simpl.
        split_and!; [done|lia|by rewrite difference_empty_L|done].
      * destruct (Value_dtor_frame _ _ _ Hd) as (l & Hl & Hlen & Hdom).
        exists l.
        assert (dom (heap σ') = dom (heap σ1) ∧ deleted σ' = deleted σ1)
          as [Hd' Hl'].
        { destruct T; simpl in Hn.
          - by apply (Value_copy_frame _ _ _ _ Hn).
          - destruct (Value_move_frame _ _ _ _ Hn) as [-> ->]. done. }
        rewrite Hd', Hl'. done.
Qed.

Lemma allocation_and_release_sites_witness :
  ∃ l, deleted (mkState ∅ ∅ [1%positive])
       = l ++ deleted (mkState {[ 1%positive := mkValue Type_.String (string_ 1) ]}
                               {[ 1%positive := mkValueData String 0 ]} []) ∧
       (length l ≤ 1)%nat ∧
       dom (heap (mkState ∅ ∅ [1%positive]))
       = dom (heap (mkState {[ 1%positive := mkValue Type_.String (string_ 1) ]}
                            {[ 1%positive := mkValueData String 0 ]} []))
         ∖ list_to_set l ∧
       (destroys (destruct_ 1) = false → l = []).
Proof.
  apply (allocation_and_release_sites first_fit (destruct_ 1)
           (mkState {[ 1%positive := mkValue Type_.String (string_ 1) ]}
                    {[ 1%positive := mkValueData String 0 ]} [])
           (mkState ∅ ∅ [1%positive]));
    [vm_compute; reflexivity|reflexivity].
Defined.

(** ** Further properties: what the factories can produce *)

Lemma only_Strings_store vs h del a v :
  only_Strings (mkState vs h del) →
  type_ v ≠ Type_.Array ∧ type_ v ≠ Type_.Dictionary ∧
  type_ v ≠ Type_.Closure →
  only_Strings (mkState (<[a := v]> vs) h del).
Proof.
  intros [Hv Hh] Ht. split; simpl in *; [|done].
  intros b w. rewrite lookup_insert. case_decide.
  - by intros [= <-].
  - apply Hv.
Qed.

Lemma only_Strings_end vs h del a :
  only_Strings (mkState vs h del) → only_Strings (mkState (delete a vs) h del).
Proof.
  intros [Hv Hh]. split; simpl in *; [|done].
  intros b w. rewrite lookup_delete. case_decide; [done|]. apply Hv.
Qed.

Lemma only_Strings_heap_insert vs h del p c :
  only_Strings (mkState vs h del) →
  only_Strings (mkState vs (<[p := mkValueData String c]> h) del).
Proof.
  intros [Hv Hh]. split; simpl in *; [done|].
  intros q e. rewrite lookup_insert. case_decide.
  - by intros [= <-].
  - apply Hh.
Qed.

Lemma only_Strings_heap_delete vs h del del' p :
  only_Strings (mkState vs h del) →
  only_Strings (mkState vs (delete p h) del').
Proof.
  intros [Hv Hh]. split; simpl in *; [done|].
  intros q e. rewrite lookup_delete. case_decide; [done|]. apply Hh.
Qed.

Lemma Value_copy_only_Strings σ this other σ' :
  only_Strings σ → Value_copy this other σ = Ok (tt, σ') → only_Strings σ'.
Proof.
  destruct σ as [vs h del]. intros HI. unfold_model; simpl.
  destruct (vs !! other) as [[t u]|] eqn:Eo; [|done].
  pose proof (proj1 HI _ _ Eo) as (? & ? & ?). simpl in *.
  destruct t; simpl; destruct u; simpl; try done;
    try (intros [= <-]; by apply only_Strings_store);
    (destruct (h !! p) as [[C c]|] eqn:Eh; simpl; [|done]);
    (case_decide; [done|]); simpl; intros [= <-];
    pose proof (proj2 HI _ _ Eh) as HC; simpl in HC; subst C;
    (apply only_Strings_store; [by apply only_Strings_heap_insert|done]).
Qed.

Lemma Value_move_only_Strings σ this other σ' :
  only_Strings σ → Value_move this other σ = Ok (tt, σ') → only_Strings σ'.
Proof.
  destruct σ as [vs h del]. intros HI. unfold_model; simpl.
  destruct (vs !! other) as [[t u]|] eqn:Eo; [|done].
  pose proof (proj1 HI _ _ Eo) as (? & ? & ?). simpl in *.
  destruct t; simpl; destruct u; simpl; try done;
    try (intros [= <-]; by apply only_Strings_store);
    (destruct (<[this:=_]> vs !! other) as [w|]; simpl; [|done]);
    intros [= <-]; by repeat apply only_Strings_store.
Qed.

Lemma Value_dtor_only_Strings σ this σ' :
  only_Strings σ → Value_dtor this σ = Ok (tt, σ') → only_Strings σ'.
Proof.
  destruct σ as [vs h del]. intros HI. unfold_model; simpl.
  destruct (vs !! this) as [[t u]|] eqn:Ev; [|done].
  destruct t; simpl; destruct u; simpl; try done;
    try (intros [= <-]; by apply only_Strings_end);
    (destruct (h !! p) as [[C c]|] eqn:Eh; simpl; [|done]);
    pose proof (proj2 HI _ _ Eh) as HC; simpl in HC; subst C;
    (case_decide; simpl; [|case_decide; [done|]; simpl]);
    intros [= <-];
    apply only_Strings_end;
    first [ by eapply only_Strings_heap_delete
          | by apply only_Strings_heap_insert ].
Qed.

Lemma run_op_only_Strings A op σ σ' :
  only_Strings σ → exec (run_op A op) σ = Ok σ' → only_Strings σ'.
Proof.
  intros HI H. apply exec_Ok_inv in H.
  destruct (inspects op) eqn:Hi.
  { by apply (inspects_reads_only A op) in H as ->. }
  destruct op; try done; simpl in H.
  - destruct σ. unfold_model. simplify_eq. by apply only_Strings_store.
  - destruct σ. unfold_model. simplify_eq. by apply only_Strings_store.
  - destruct σ. unfold_model. simplify_eq. by apply only_Strings_store.
  - destruct σ. unfold_model. simplify_eq. by apply only_Strings_store.
  - destruct σ. unfold_model. simplify_eq. by apply only_Strings_store.
  - destruct σ. destruct valueType; simpl in H; unfold_model; simplify_eq;
      (apply only_Strings_store; [by apply only_Strings_heap_insert|done]).
  - by eapply Value_copy_only_Strings.
  - by eapply Value_move_only_Strings.
  - by eapply Value_dtor_only_Strings.
  - apply operator_assign_cases in H as [->|(σ1 & Hd & Hn)]; [done|].
    apply Value_dtor_only_Strings in Hd; [|done].
    destruct T; simpl in Hn;
      [by eapply Value_copy_only_Strings | by eapply Value_move_only_Strings].
Qed.

(** X15: whatever a program does with the public operations, starting from
    the empty memory, no live [Value] is ever tagged [Array], [Dictionary]
    or [Closure] and every live payload object is a [String]; so [isArray],
    [isDictionary] and [isClosure] never answer true. *)
Theorem only_Strings_are_ever_made (A : Allocator) (ops : list Op) (σ : State) :
  run A ops empty_state = Some σ →
  only_Strings σ ∧
  ∀ this b σ',
    isArray this σ = Ok (b, σ') ∨ isDictionary this σ = Ok (b, σ') ∨
    isClosure this σ = Ok (b, σ') →
    b = false.
Proof.
  intros Hrun.
  assert (HI : only_Strings σ).
  { assert (H0 : only_Strings empty_state)
      by (split; [intros a v|intros p d]; simpl; by rewrite lookup_empty).
    revert Hrun H0. generalize empty_state.
    induction ops as [|op ops IH]; intros σ0; simpl.
    - by intros [= <-].
    - destruct (well_placed op σ0); [|done].
      destruct (exec (run_op A op) σ0) as [σ1| |] eqn:He; [|done..].
      intros Hr H0. apply (IH σ1 Hr). by eapply run_op_only_Strings. }
  split; [done|]. intros this b σ' H.
  unfold_model.
  destruct (values σ !! this) as [v|] eqn:Ev; [|by destruct H as [|[|]]].
  destruct (proj1 HI _ _ Ev) as (Ha & Hd & Hc).
  case_bool_decide; [|by destruct H as [|[|]]].
  destruct H as [H|[H|H]]; simplify_eq; by apply bool_decide_eq_false_2.
Qed.

Lemma only_Strings_are_ever_made_witness :
  only_Strings sample_result ∧
  ∀ this b σ',
    isArray this sample_result = Ok (b, σ') ∨
    isDictionary this sample_result = Ok (b, σ') ∨
    isClosure this sample_result = Ok (b, σ') →
    b = false.
Proof.
  apply (only_Strings_are_ever_made first_fit sample_program sample_result).
  vm_compute; reflexivity.
Defined.

(** ** Scenarios *)

(** [Value v(42ul)]: [v.isInteger()], [*v.getInteger() == 42], and
    [v.getString()] fails its assertion. *)
Example integer_42 :
  (Value_unsigned_long 1 42;;
   b ← isInteger 1;
   q ← getInteger 1;
   n ← deref q;
   mret (b, n)) empty_state
  = Ok ((true, integer_ 42),
        mkState {[ 1%positive := mkValue Type_.Integer (integer_ 42) ]} ∅ []) ∧
  (Value_unsigned_long 1 42;; getString 1) empty_state = AssertionFailed.
Proof. split; reflexivity. Qed.

(** [a = MakeString("x"); b = a (copy); c = std::move(a)]: [b] and [c] are
    Strings on the payload [a] had, whose share count is 1, and [a] is
    [Null]. *)
Example make_copy_move :
  (MakeString first_fit tt 1;;
   Value_copy 2 1;;
   Value_move 3 1;;
   a ← isNull 1;
   b ← isString 2;
   c ← isString 3;
   pb ← getString 2;
   pc ← getString 3;
   mret (a, b, c, pb, pc)) empty_state
  = Ok ((true, true, true, 1%positive, 1%positive),
        mkState {[ 1%positive := mkValue Type_.Null (string_ 1);
                   2%positive := mkValue Type_.String (string_ 1);
                   3%positive := mkValue Type_.String (string_ 1) ]}
                {[ 1%positive := mkValueData String 1 ]} []).
Proof. vm_compute. reflexivity. Qed.

End Karina.
